(** * DaemonControl: the daemon's local control socket

    A shallow embedding of [lib/cli/daemoncontrol.cpp]: the lifecycle of the
    control service ([Start], [Stop], [BeforeFork], [AfterFork], the
    destructor), the thread body [RunEventLoop] and the per-connection HTTP
    loop ([EnsureValidHeaders], [EnsureValidBody], [ProcessRequest],
    [ProcessMessages]).

    C++ exceptions are values of [exn]; every function lives in a small
    state-and-exception monad whose results also record the two ways a C++
    call can fail to come back: it blocks forever, or the process dies in
    [std::terminate]. *)

From stdpp Require Import gmap strings list fin_maps.
From Stdlib Require Import ZArith NArith Lia.

Open Scope string_scope.
Open Scope list_scope.

(** ** Error codes and exceptions *)

(** [boost::system::error_category], as far as this file tells them apart. *)
Inductive error_category :=
| system_category
| generic_category
| beast_http_category
| asio_misc_category.

(** [boost::system::error_code]: a value and the category it belongs to. *)
Record error_code := mk_error_code {
  ec_value : Z;
  ec_category : error_category
}.

Global Instance error_category_eq_dec : EqDecision error_category.
Proof. solve_decision. Defined.

Global Instance error_code_eq_dec : EqDecision error_code.
Proof. solve_decision. Defined.

(** [boost::system::errc::broken_pipe] is EPIPE. *)
Definition errc_broken_pipe : Z := 32.
(** [boost::system::errc::invalid_argument] is EINVAL. *)
Definition errc_invalid_argument : Z := 22.
(** [boost::system::errc::bad_file_descriptor] is EBADF. *)
Definition errc_bad_file_descriptor : Z := 9.
(** [boost::asio::error::already_open]. *)
Definition asio_already_open : error_code := mk_error_code 1 asio_misc_category.
(** [boost::beast::http::error::header_limit] and [body_limit]. *)
Definition http_header_limit : error_code := mk_error_code 8 beast_http_category.
Definition http_body_limit : error_code := mk_error_code 9 beast_http_category.

(** [const boost::system::error_code l_EPipe (boost::system::errc::broken_pipe,
    boost::system::system_category());] *)
Definition l_EPipe : error_code := mk_error_code errc_broken_pipe system_category.

(** The exception classes the file throws, catches or lets through.
    [forced_unwind] is Boost.Coroutine's unwinding signal and is the only one
    that does not derive from [std::exception]; [TerminateDaemonControl] is
    declared in the file as [class TerminateDaemonControl : public
    std::exception]. *)
Inductive exn :=
| forced_unwind
| TerminateDaemonControl
| system_error (code : error_code) (what : string)
| invalid_argument (what : string)
| std_exception (what : string).

Global Instance exn_eq_dec : EqDecision exn.
Proof. solve_decision. Defined.

(** Does [catch (const std::exception&)] match? *)
Definition is_std_exception (e : exn) : bool :=
  match e with
  | forced_unwind => false
  | _ => true
  end.

(** [ex.what()] *)
Definition what (e : exn) : string :=
  match e with
  | forced_unwind => ""
  | TerminateDaemonControl => "std::exception"
  | system_error _ w => w
  | invalid_argument w => w
  | std_exception w => w
  end.

(** ** Log *)

Inductive LogSeverity :=
| LogDebug
| LogNotice
| LogInformation
| LogWarning
| LogCritical.

(** One [Log(severity, facility) << message] line. *)
Record log_entry := mk_log {
  log_severity : LogSeverity;
  log_facility : string;
  log_message : string
}.

(** ** The monad of C++ calls

    A call started in state [s] returns a value, throws, never comes back
    ([Blocked]: a thread waiting in [join], a coroutine left suspended), or
    ends the process ([Terminated]: [std::terminate]). *)

Inductive result (S A : Type) :=
| Returned (a : A) (s : S)
| Thrown (e : exn) (s : S)
| Blocked (s : S)
| Terminated.

Arguments Returned {S A} a s.
Arguments Thrown {S A} e s.
Arguments Blocked {S A} s.
Arguments Terminated {S A}.

Definition M (S A : Type) : Type := S -> result S A.

Definition ret {S A} (a : A) : M S A := fun s => Returned a s.

Definition bind {S A B} (m : M S A) (k : A -> M S B) : M S B :=
  fun s =>
    match m s with
    | Returned a s' => k a s'
    | Thrown e s' => Thrown e s'
    | Blocked s' => Blocked s'
    | Terminated => Terminated
    end.

Definition throw {S A} (e : exn) : M S A := fun s => Thrown e s.

Definition get {S} : M S S := fun s => Returned s s.

Definition modify {S} (f : S -> S) : M S unit := fun s => Returned tt (f s).

(** [try { m } catch ...]: [handler e] is [Some k] when one of the catch
    clauses matches [e] (the first that does), and [None] when the exception
    passes through. *)
Definition try_catch {S A} (m : M S A) (handler : exn -> option (M S A)) : M S A :=
  fun s =>
    match m s with
    | Thrown e s' =>
        match handler e with
        | Some k => k s'
        | None => Thrown e s'
        end
    | r => r
    end.

(** A destructor is [noexcept]: an exception that leaves it ends the process. *)
Definition noexcept {S A} (m : M S A) : M S A :=
  fun s =>
    match m s with
    | Thrown _ _ => Terminated
    | r => r
    end.

Declare Scope cxx_scope.
Delimit Scope cxx_scope with cxx.
Notation "x <- m ;; k" := (bind m (fun x => k))
  (at level 100, m at next level, right associativity) : cxx_scope.
Notation "m ;;; k" := (bind m (fun _ => k))
  (at level 100, right associativity) : cxx_scope.
Open Scope cxx_scope.

(** ** JSON values

    [Dictionary] as the file builds it: string keys in insertion order, with
    numbers and strings as values. *)
Inductive Value :=
| value_number (n : Z)
| value_string (s : string).

Definition Dictionary : Type := list (string * Value).

(** ** Collaborators that live outside this file

    Constants and helpers the file uses from other units of the program
    ([base/configuration], [base/application], [base/exception],
    [base/json]). They are taken as given. *)
Class Collaborators := {
  (** [Configuration::InitRunDir] *)
  InitRunDir : string;
  (** [Application::GetAppVersion()] *)
  GetAppVersion : string;
  (** [DiagnosticInformation(ex)] *)
  DiagnosticInformation : exn -> string;
  (** JSON serialisation of a dictionary of numbers and strings *)
  JsonEncode : Dictionary -> string
}.

(** ** The service object *)

(** [m_IO], the [boost::asio::io_context], as far as the lifecycle sees it:
    how many posted handlers throwing [TerminateDaemonControl] are still
    queued, and how many accept-loop coroutines have been spawned on it. *)
Record io_context := mk_io {
  io_posted : nat;
  io_coroutines : nat
}.

(** [m_Acceptor], the [UnixStream::acceptor]. *)
Inductive acceptor :=
| acceptor_closed
| acceptor_opened
| acceptor_bound (path : string)
| acceptor_listening (path : string) (backlog : Z).

(** [m_Thread], the [std::thread]: default-constructed or joined
    ([not_a_thread]), or owning a thread that runs [RunEventLoop]. *)
Inductive thread_handle :=
| not_a_thread
| thread_RunEventLoop.

Definition joinable (t : thread_handle) : bool :=
  match t with
  | not_a_thread => false
  | thread_RunEventLoop => true
  end.

Record DaemonControl := mk_DaemonControl {
  m_IO : io_context;
  m_Acceptor : acceptor;
  m_Thread : thread_handle;
  m_WasRunningBeforeFork : bool
}.

(** [boost::asio::io_context::fork_event] *)
Inductive fork_event := fork_prepare | fork_parent | fork_child.

(** What a lifecycle call does to the world outside the object, in the order
    it does it. *)
Inductive effect :=
| eff_open
| eff_unlink (path : string)
| eff_bind (path : string)
| eff_chmod (path : string) (mode : Z)
| eff_listen (backlog : Z)
| eff_spawn_RunAcceptLoop
| eff_thread_launch
| eff_post_TerminateDaemonControl
| eff_join
| eff_close
| eff_notify_fork (ev : fork_event)
| eff_destroy_io.

(** The object, the socket files on disk (path to mode) and the effects so
    far, oldest first. *)
Record world := mk_world {
  this : DaemonControl;
  files : gmap string Z;
  effects : list effect
}.

(** What the operating system answers to [Start]: whether creating the
    socket fails, whether the unlink of the socket path fails for a reason
    that leaves a file there, whether binding fails, and the mode the new
    socket file gets (0777 masked by the umask). *)
Record start_env := mk_start_env {
  open_error : option error_code;
  unlink_error : option error_code;
  bind_error : option error_code;
  bind_mode : Z
}.

Definition INT_MAX : Z := 2147483647.

(** The octal literal [0700]. *)
Definition mode_0700 : Z := 448.

Definition set_this (f : DaemonControl -> DaemonControl) : M world unit :=
  modify (fun w => mk_world (f (this w)) (files w) (effects w)).

Definition set_files (f : gmap string Z -> gmap string Z) : M world unit :=
  modify (fun w => mk_world (this w) (f (files w)) (effects w)).

Definition emit (e : effect) : M world unit :=
  modify (fun w => mk_world (this w) (files w) (effects w ++ [e])).

Definition set_m_IO (io : io_context) (d : DaemonControl) : DaemonControl :=
  mk_DaemonControl io (m_Acceptor d) (m_Thread d) (m_WasRunningBeforeFork d).

Definition set_m_Acceptor (a : acceptor) (d : DaemonControl) : DaemonControl :=
  mk_DaemonControl (m_IO d) a (m_Thread d) (m_WasRunningBeforeFork d).

Definition set_m_Thread (t : thread_handle) (d : DaemonControl) : DaemonControl :=
  mk_DaemonControl (m_IO d) (m_Acceptor d) t (m_WasRunningBeforeFork d).

Definition set_m_WasRunningBeforeFork (b : bool) (d : DaemonControl) : DaemonControl :=
  mk_DaemonControl (m_IO d) (m_Acceptor d) (m_Thread d) b.

(** *** Library calls on the members *)

(** [m_Acceptor.open(protocol)]: an acceptor that is already open refuses. *)
Definition acceptor_open (env : start_env) : M world unit :=
  w <- get ;;
  match m_Acceptor (this w), open_error env with
  | acceptor_closed, None => emit eff_open ;;; set_this (set_m_Acceptor acceptor_opened)
  | acceptor_closed, Some ec => throw (system_error ec "open")
  | _, _ => throw (system_error asio_already_open "Already open")
  end.

(** [(void)unlink(path)]: the result is dropped. [failure] is the error of
    an unlink that leaves the file where it is; with [None] no file is at
    [path] afterwards, whether one was removed or none was there. *)
Definition unlink (failure : option error_code) (path : string) : M world unit :=
  emit (eff_unlink path) ;;;
  match failure with
  | None => set_files (delete path)
  | Some _ => ret tt
  end.

(** [m_Acceptor.bind(endpoint)] creates the socket file. *)
Definition acceptor_bind (env : start_env) (path : string) : M world unit :=
  w <- get ;;
  match m_Acceptor (this w), bind_error env with
  | acceptor_opened, None =>
      emit (eff_bind path) ;;;
      set_files (insert path (bind_mode env)) ;;;
      set_this (set_m_Acceptor (acceptor_bound path))
  | acceptor_opened, Some ec => throw (system_error ec "bind")
  | acceptor_closed, _ =>
      throw (system_error (mk_error_code errc_bad_file_descriptor system_category) "bind")
  | _, _ =>
      throw (system_error (mk_error_code errc_invalid_argument system_category) "bind")
  end.

(** [(void)chmod(path, mode)]: changes the mode of an existing file. *)
Definition chmod (path : string) (mode : Z) : M world unit :=
  emit (eff_chmod path mode) ;;; set_files (alter (fun _ => mode) path).

(** [m_Acceptor.listen(backlog)] *)
Definition acceptor_listen (backlog : Z) : M world unit :=
  w <- get ;;
  match m_Acceptor (this w) with
  | acceptor_bound p | acceptor_listening p _ =>
      emit (eff_listen backlog) ;;; set_this (set_m_Acceptor (acceptor_listening p backlog))
  | acceptor_opened =>
      throw (system_error (mk_error_code errc_invalid_argument system_category) "listen")
  | acceptor_closed =>
      throw (system_error (mk_error_code errc_bad_file_descriptor system_category) "listen")
  end.

(** [m_Acceptor.local_endpoint().path()] *)
Definition acceptor_local_endpoint_path : M world string :=
  w <- get ;;
  match m_Acceptor (this w) with
  | acceptor_closed =>
      throw (system_error (mk_error_code errc_bad_file_descriptor system_category)
                          "local_endpoint")
  | acceptor_opened => ret ""
  | acceptor_bound p | acceptor_listening p _ => ret p
  end.

(** [m_Acceptor.close()]; closing a closed acceptor does nothing. *)
Definition acceptor_close : M world unit :=
  w <- get ;;
  match m_Acceptor (this w) with
  | acceptor_closed => ret tt
  | _ => emit eff_close ;;; set_this (set_m_Acceptor acceptor_closed)
  end.

(** [asio::spawn(m_IO, [this](asio::yield_context yc) { RunAcceptLoop(yc); })] *)
Definition spawn_RunAcceptLoop : M world unit :=
  emit eff_spawn_RunAcceptLoop ;;;
  set_this (fun d => set_m_IO (mk_io (io_posted (m_IO d)) (S (io_coroutines (m_IO d)))) d).

(** [asio::post(m_IO, []() { throw TerminateDaemonControl(); })] *)
Definition post_TerminateDaemonControl : M world unit :=
  emit eff_post_TerminateDaemonControl ;;;
  set_this (fun d => set_m_IO (mk_io (S (io_posted (m_IO d))) (io_coroutines (m_IO d))) d).

(** [m_Thread = std::thread(&DaemonControl::RunEventLoop, this)]: move
    assignment to a [std::thread] that is still joinable calls
    [std::terminate]. What the new thread does with handlers that are
    already queued is not followed here: [io_posted] is settled at the
    join. *)
Definition thread_assign_RunEventLoop : M world unit :=
  w <- get ;;
  if joinable (m_Thread (this w)) then (fun _ => Terminated)
  else emit eff_thread_launch ;;; set_this (set_m_Thread thread_RunEventLoop).

(** [m_Thread.join()]. A handle that is not joinable throws
    [std::system_error] (EINVAL). The thread runs [RunEventLoop], which leaves
    its loop at the first queued handler that throws
    [TerminateDaemonControl]; with none queued the caller waits. That the
    thread gets to run a queued handler, so that the join comes back, is
    taken from [RunEventLoop] and not derived here; the join settles one
    handler of [io_posted]. *)
Definition thread_join : M world unit :=
  w <- get ;;
  match m_Thread (this w), io_posted (m_IO (this w)) with
  | not_a_thread, _ => throw (std_exception "Invalid argument")
  | thread_RunEventLoop, O => (fun s => Blocked s)
  | thread_RunEventLoop, S n =>
      emit eff_join ;;;
      set_this (fun d => set_m_Thread not_a_thread
                           (set_m_IO (mk_io n (io_coroutines (m_IO d))) d))
  end.

(** [m_IO.notify_fork(ev)] *)
Definition notify_fork (ev : fork_event) : M world unit :=
  emit (eff_notify_fork ev).

(** *** The member functions *)

Section Lifecycle.
Context `{Collaborators}.

(** [DaemonControl::Start] *)
Definition Start (env : start_env) : M world unit :=
  let socket := InitRunDir +:+ "/icinga2.s" in
  acceptor_open env ;;;
  unlink (unlink_error env) socket ;;;
  acceptor_bind env socket ;;;
  chmod socket mode_0700 ;;;
  acceptor_listen INT_MAX ;;;
  spawn_RunAcceptLoop ;;;
  thread_assign_RunEventLoop ;;;
  set_this (set_m_WasRunningBeforeFork true).

(** [DaemonControl::Stop] *)
Definition Stop : M world unit :=
  set_this (set_m_WasRunningBeforeFork false) ;;;
  post_TerminateDaemonControl ;;;
  thread_join ;;;
  socket <- acceptor_local_endpoint_path ;;
  acceptor_close ;;;
  (* taken to go through: the file is the socket this process bound *)
  unlink None socket.

(** [DaemonControl::BeforeFork] *)
Definition BeforeFork : M world unit :=
  w <- get ;;
  (if m_WasRunningBeforeFork (this w) then
     post_TerminateDaemonControl ;;;
     thread_join
   else ret tt) ;;;
  notify_fork fork_prepare.

(** Modelled from the spec: the constructor [DaemonControl()], declared in
    [cli/daemoncontrol.hpp]. It leaves the object in the "freshly-initialized
    (unstarted) state": nothing queued on the execution context, the
    listening socket not open, no background thread, and the "was running"
    flag false. *)
Definition DaemonControl_ctor : DaemonControl :=
  mk_DaemonControl (mk_io 0 0) acceptor_closed not_a_thread false.

(** [DaemonControl::~DaemonControl]: the body, then the members' own
    destructors. [std::thread]'s ends the process when the handle is still
    joinable, the acceptor's closes the descriptor if it is open, and the
    execution context's drops what is queued and unwinds its coroutines. *)
Definition DaemonControl_dtor_body : M world unit :=
  w <- get ;;
  if joinable (m_Thread (this w)) then Stop else ret tt.

Definition DaemonControl_dtor_members : M world unit :=
  w <- get ;;
  (if joinable (m_Thread (this w)) then (fun _ => Terminated) else ret tt) ;;;
  acceptor_close ;;;
  emit eff_destroy_io ;;;
  set_this (set_m_IO (mk_io 0 0)).

Definition DaemonControl_dtor : M world unit :=
  noexcept (DaemonControl_dtor_body ;;; DaemonControl_dtor_members).

(** [DaemonControl::AfterFork] *)
Definition AfterFork (parent : bool) : M world unit :=
  notify_fork (if parent then fork_parent else fork_child) ;;;
  w <- get ;;
  if m_WasRunningBeforeFork (this w) then
    if parent then
      thread_assign_RunEventLoop
    else
      (* this->~DaemonControl(); new(this) DaemonControl(); *)
      DaemonControl_dtor ;;;
      set_this (fun _ => DaemonControl_ctor)
  else ret tt.

(** *** Sequences of lifecycle calls *)

Inductive call :=
| call_Start (env : start_env)
| call_Stop
| call_BeforeFork
| call_AfterFork (parent : bool).

Definition exec (c : call) : M world unit :=
  match c with
  | call_Start env => Start env
  | call_Stop => Stop
  | call_BeforeFork => BeforeFork
  | call_AfterFork parent => AfterFork parent
  end.

(** The caller makes the calls one after the other; a call that throws
    leaves the object as it was at the throw and the caller goes on. No
    state follows a call that blocks or ends the process. *)
Fixpoint run (cs : list call) (w : world) : option world :=
  match cs with
  | [] => Some w
  | c :: cs' =>
      match exec c w with
      | Returned _ w' | Thrown _ w' => run cs' w'
      | Blocked _ | Terminated => None
      end
  end.

(** A process that has just constructed its [DaemonControl]. *)
Definition initial_world (fs : gmap string Z) : world :=
  mk_world DaemonControl_ctor fs [].

End Lifecycle.

(** ** The event-loop thread *)

(** What one call of [m_IO.run()] does: it returns because the context ran
    out of work, or a handler's exception comes out of it. *)
Inductive run_outcome :=
| run_returns
| run_throws (e : exn).

Definition io_run {S} (o : run_outcome) : M S unit :=
  match o with
  | run_returns => ret tt
  | run_throws e => throw e
  end.

Definition Log {S} (put : log_entry -> S -> S) (sev : LogSeverity) (facility msg : string)
  : M S unit :=
  modify (put (mk_log sev facility msg)).

Definition put_log (l : log_entry) (ls : list log_entry) : list log_entry := ls ++ [l].

Section EventLoop.
Context `{Collaborators}.

(** [DaemonControl::RunEventLoop]. [runs] lists what the successive calls of
    [m_IO.run()] do; when the list is used up the thread is inside
    [m_IO.run()] and stays there. The boolean of an iteration says whether
    the [for (;;)] goes round again. *)
Definition RunEventLoop_iteration (o : run_outcome) : M (list log_entry) bool :=
  try_catch
    (io_run o ;;; ret false)
    (fun e =>
       match e with
       | TerminateDaemonControl => Some (ret false)
       | forced_unwind => None
       | _ =>
           Some (Log put_log LogCritical "DaemonControl" "Exception during I/O operation!" ;;;
                 Log put_log LogDebug "DaemonControl"
                   ("Exception during I/O operation: " +:+ DiagnosticInformation e) ;;;
                 ret true)
       end).

Fixpoint RunEventLoop (runs : list run_outcome) : M (list log_entry) unit :=
  match runs with
  | [] => fun s => Blocked s
  | o :: runs' =>
      again <- RunEventLoop_iteration o ;;
      if again : bool then RunEventLoop runs' else ret tt
  end.

End EventLoop.

(** ** HTTP messages *)

(** [boost::beast::http::field], the names this file uses and all others. *)
Inductive field :=
| field_connection
| field_server
| field_user_agent
| field_other (name : string).

Global Instance field_eq_dec : EqDecision field.
Proof. solve_decision. Defined.

(** Header fields in the order they were inserted; a name may occur more
    than once. *)
Definition fields : Type := list (field * string).

(** [msg[name]]: the value of the first field of that name, or the empty
    string if there is none. *)
Fixpoint field_get (name : field) (fs : fields) : string :=
  match fs with
  | [] => ""
  | (n, v) :: fs' => if bool_decide (n = name) then v else field_get name fs'
  end.

(** [msg.set(name, value)]: every field of that name is erased and one is
    inserted. *)
Definition field_set (name : field) (value : string) (fs : fields) : fields :=
  (filter (fun nv => fst nv ≠ name) fs ++ [(name, value)])%list.

(** [http::request<http::string_body>]. [version] is 10 for HTTP/1.0 and 11
    for HTTP/1.1; [req_content_length] is the length the header announces,
    if it announces one. *)
Record http_request := mk_request {
  req_method : string;
  req_target : string;
  req_version : Z;
  req_fields : fields;
  req_content_length : option N;
  req_body : string
}.

(** [http::response<http::string_body>] *)
Record http_response := mk_response {
  res_result : Z;
  res_version : Z;
  res_fields : fields;
  res_body : string
}.

(** A default-constructed message: status 200 OK, HTTP/1.1, no fields, no
    body. *)
Definition response_default : http_response := mk_response 200 11 [] "".
Definition request_default : http_request := mk_request "" "" 11 [] None "".

Definition response_result (code : Z) (r : http_response) : http_response :=
  mk_response code (res_version r) (res_fields r) (res_body r).

Definition response_set (name : field) (value : string) (r : http_response) : http_response :=
  mk_response (res_result r) (res_version r) (field_set name value (res_fields r)) (res_body r).

Definition response_body (b : string) (r : http_response) : http_response :=
  mk_response (res_result r) (res_version r) (res_fields r) b.

(** [http::parser<true, http::string_body>]: its two limits and the message
    it is filling. Beast's own defaults are 8 KiB of header and 1 MiB of
    request body. *)
Record request_parser := mk_parser {
  header_limit : N;
  body_limit : N;
  parser_get : http_request
}.

Definition parser_default : request_parser := mk_parser 8192 1048576 request_default.

Definition set_header_limit (n : N) (p : request_parser) : request_parser :=
  mk_parser n (body_limit p) (parser_get p).

Definition set_body_limit (n : N) (p : request_parser) : request_parser :=
  mk_parser (header_limit p) n (parser_get p).

(** ** One connection *)

(** What the coroutine of a connection does, oldest first. *)
Inductive conn_event :=
| ev_read_header
| ev_read_body
| ev_write (r : http_response)
| ev_flush
| ev_log (l : log_entry).

Definition trace : Type := list conn_event.

Definition event (e : conn_event) : M trace unit :=
  modify (fun t => (t ++ [e])%list).

Definition put_conn_log (l : log_entry) (t : trace) : trace := (t ++ [ev_log l])%list.

(** What a read finds: [size] octets that parse to [a], or an exception,
    which for a transport or syntax error is a
    [boost::system::system_error] and for a coroutine that is being
    destroyed is [forced_unwind]. *)
Inductive input (A : Type) :=
| Arrives (size : N) (a : A)
| Raises (e : exn).

Arguments Arrives {A} size a.
Arguments Raises {A} e.

(** One request/response exchange as the peer and the rest of the process
    make it happen: what the two reads find, whether the handling of the
    request throws, and whether the write and the flush of the answer
    throw. *)
Record exchange := mk_exchange {
  x_header : input http_request;
  x_body : input string;
  x_handler : option exn;
  x_write : option exn;
  x_flush : option exn
}.

Definition raise_if {S} (o : option exn) : M S unit :=
  match o with
  | Some e => throw e
  | None => ret tt
  end.

(** [http::async_read_header(stream, buf, parser, yc)]. Beast refuses a
    header longer than the parser's header limit, and an announced
    Content-Length above its body limit. *)
Definition async_read_header (x : exchange) (p : request_parser) : M trace request_parser :=
  event ev_read_header ;;;
  match x_header x with
  | Raises e => throw e
  | Arrives size r =>
      if (header_limit p <? size)%N then
        throw (system_error http_header_limit "header limit exceeded")
      else
        match req_content_length r with
        | Some len =>
            if (body_limit p <? len)%N then
              throw (system_error http_body_limit "body limit exceeded")
            else ret (mk_parser (header_limit p) (body_limit p) r)
        | None => ret (mk_parser (header_limit p) (body_limit p) r)
        end
  end.

(** [http::async_read(stream, buf, parser, yc)]: the rest of the message.
    Beast refuses a body longer than the parser's body limit. *)
Definition async_read (x : exchange) (p : request_parser) : M trace request_parser :=
  event ev_read_body ;;;
  match x_body x with
  | Raises e => throw e
  | Arrives size b =>
      if (body_limit p <? size)%N then
        throw (system_error http_body_limit "body limit exceeded")
      else
        let r := parser_get p in
        ret (mk_parser (header_limit p) (body_limit p)
               (mk_request (req_method r) (req_target r) (req_version r)
                  (req_fields r) (req_content_length r) b))
  end.

(** [http::async_write(stream, response, yc)] *)
Definition async_write (x : exchange) (r : http_response) : M trace unit :=
  event (ev_write r) ;;; raise_if (x_write x).

(** [stream.async_flush(yc)] *)
Definition async_flush (x : exchange) : M trace unit :=
  event ev_flush ;;; raise_if (x_flush x).

Section Connection.
Context `{Collaborators}.

(** Modelled from the spec: [HttpUtility::SendJsonBody] of
    [remote/httputility], the "build an error payload" capability. With no
    parameters object it stores the JSON serialisation of [val] as the body
    of the response and leaves its status and the fields already set as
    they are. *)
Definition SendJsonBody (r : http_response) (val : Dictionary) : http_response :=
  response_body (JsonEncode val) r.

(** Modelled from the spec: [HttpUtility::SendJsonError] of
    [remote/httputility]. It gives the response the status [code] and the
    error envelope as body: "error" with the code, "status" with the
    message, and the additional diagnostic field when the caller passes
    diagnostic detail ([None] stands for a call without that argument). *)
Definition SendJsonError (r : http_response) (code : Z) (info : string)
    (diagnosticInformation : option string) : http_response :=
  SendJsonBody (response_result code r)
    ([("error", value_number code); ("status", value_string info)] ++
     match diagnosticInformation with
     | Some detail => [("diagnostic_information", value_string detail)]
     | None => []
     end)%list.

(** [const auto l_ServerHeader ("Icinga/" + Application::GetAppVersion());] *)
Definition l_ServerHeader : string := "Icinga/" +:+ GetAppVersion.

(** The answer both validation steps give to a request they refuse. *)
Definition bad_request (x : exchange) (response : http_response) (reason : string)
  : M trace unit :=
  let response := response_result 400 response in
  let response :=
    SendJsonBody response
      [("error", value_number 400);
       ("status", value_string ("Bad Request: " +:+ reason))] in
  let response := response_set field_connection "close" response in
  async_write x response ;;;
  async_flush x.

(** [EnsureValidHeaders] *)
Definition EnsureValidHeaders (x : exchange) (parser : request_parser) (response : http_response)
  : M trace (bool * request_parser) :=
  try_catch
    (parser <-
       try_catch
         (async_read_header x parser)
         (fun ex =>
            match ex with
            | system_error _ _ => Some (throw (invalid_argument (what ex)))
            | _ => None
            end) ;;
     (if bool_decide (req_version (parser_get parser) = 10%Z)
         || bool_decide (req_version (parser_get parser) = 11%Z)
      then ret tt
      else throw (invalid_argument "Unsupported HTTP version")) ;;;
     ret (true, parser))
    (fun ex =>
       match ex with
       | invalid_argument _ =>
           Some (bad_request x response (what ex) ;;; ret (false, parser))
       | _ => None
       end).

(** [EnsureValidBody] *)
Definition EnsureValidBody (x : exchange) (parser : request_parser) (response : http_response)
  : M trace (bool * request_parser) :=
  try_catch
    (parser <- async_read x parser ;; ret (true, parser))
    (fun ex =>
       match ex with
       | system_error _ _ =>
           Some (bad_request x response (what ex) ;;; ret (false, parser))
       | _ => None
       end).

(** The body of the [try] of [ProcessRequest]: the answer to every path is
    404. [x_handler] says whether building it throws. *)
Definition handle_request (x : exchange) (request : http_request) (response : http_response)
  : M trace http_response :=
  raise_if (x_handler x) ;;;
  ret (SendJsonError response 404
         ("The requested path '" +:+ req_target request +:+
          "' could not be found or the request method is not valid for this path.")
         None).

(** [ProcessRequest]. The [try] yields the response to send; the handler of
    [std::exception] sends its own and returns from the function. *)
Definition ProcessRequest (x : exchange) (request : http_request) (response : http_response)
  : M trace unit :=
  to_send <-
    try_catch
      (response <- handle_request x request response ;; ret (Some response))
      (fun ex =>
         match ex with
         | forced_unwind => Some (throw ex)
         | _ =>
             Some (let response := response_default in
                   let response :=
                     SendJsonError response 500 "Unhandled exception"
                       (Some (DiagnosticInformation ex)) in
                   async_write x response ;;;
                   async_flush x ;;;
                   ret None)
         end) ;;
  match to_send with
  | Some response => async_write x response ;;; async_flush x
  | None => ret tt
  end.

(** One turn of the [for (;;)] of [ProcessMessages]; [true] when the loop
    goes round again, [false] at a [break]. *)
Definition ProcessMessages_iteration (x : exchange) : M trace bool :=
  let parser := parser_default in
  let response := response_default in
  let parser := set_header_limit (1024 * 1024)%N parser in
  let parser := set_body_limit (1024 * 1024)%N parser in
  let response := response_set field_server l_ServerHeader response in
  checked <- EnsureValidHeaders x parser response ;;
  let '(ok, parser) := checked in
  if negb ok then ret false else
  Log put_conn_log LogInformation "DaemonControl"
    ("Request: " +:+ req_method (parser_get parser) +:+ " " +:+
     req_target (parser_get parser) +:+ ", agent: " +:+
     field_get field_user_agent (req_fields (parser_get parser)) +:+ ").") ;;;
  checked <- EnsureValidBody x parser response ;;
  let '(ok, parser) := checked in
  if negb ok then ret false else
  let request := parser_get parser in
  ProcessRequest x request response ;;;
  if negb (bool_decide (req_version request = 11%Z))
     || bool_decide (field_get field_connection (req_fields request) = "close")
  then ret false
  else ret true.

(** The loop. [script] lists the exchanges the peer makes; when it is used
    up the coroutine stays suspended in the next [async_read_header]. *)
Fixpoint ProcessMessages_loop (script : list exchange) : M trace unit :=
  match script with
  | [] => event ev_read_header ;;; (fun t => Blocked t)
  | x :: script' =>
      again <- ProcessMessages_iteration x ;;
      if again : bool then ProcessMessages_loop script' else ret tt
  end.

(** [DaemonControl::Connection::ProcessMessages] *)
Definition ProcessMessages (script : list exchange) : M trace unit :=
  try_catch
    (ProcessMessages_loop script)
    (fun ex =>
       match ex with
       | forced_unwind => Some (throw ex)
       | _ =>
           let logLevel :=
             match ex with
             | system_error code _ =>
                 if bool_decide (code = l_EPipe) then LogNotice else LogCritical
             | _ => LogCritical
             end in
           Some (Log put_conn_log logLevel "DaemonControl"
                   ("Unhandled exception while processing HTTP request: " +:+ what ex))
       end).

End Connection.


(** ** Notions the properties are stated with *)

(** The state of the service as the object records it: [Start] sets
    [m_WasRunningBeforeFork] and [Stop] clears it. *)
Inductive service_state := Stopped | Running.

Definition state_of (d : DaemonControl) : service_state :=
  if m_WasRunningBeforeFork d then Running else Stopped.

(** A fork done by the contract: [BeforeFork] and, right after it,
    [AfterFork] in the parent or in the child. *)
Inductive transition :=
| do_Start (env : start_env)
| do_Stop
| do_Fork (parent : bool).

Definition calls_of (t : transition) : list call :=
  match t with
  | do_Start env => [call_Start env]
  | do_Stop => [call_Stop]
  | do_Fork parent => [call_BeforeFork; call_AfterFork parent]
  end.

(** The actions of the [Stop] sequence that show outside the object. *)
Definition is_Stop_action (e : effect) : bool :=
  match e with
  | eff_post_TerminateDaemonControl | eff_join | eff_close | eff_unlink _ => true
  | _ => false
  end.

(** From [w] to [w'] none of the actions of [Stop] took place: the flag is
    as it was and what was done contains no post, join, close or unlink. *)
Definition no_Stop_action (w w' : world) : Prop :=
  m_WasRunningBeforeFork (this w') = m_WasRunningBeforeFork (this w) /\
  exists done, effects w' = (effects w ++ done)%list /\
               forallb (fun e => negb (is_Stop_action e)) done = true.

(** What closing the acceptor shows outside: nothing if it is closed. *)
Definition close_effects (a : acceptor) : list effect :=
  match a with
  | acceptor_closed => []
  | _ => [eff_close]
  end.

(** The two invariants of the lifecycle: a joinable thread handle means
    the flag is set, and the handle is joinable exactly when the flag is
    set. *)
Definition thread_implies_running (w : world) : Prop :=
  joinable (m_Thread (this w)) = true -> m_WasRunningBeforeFork (this w) = true.

Definition thread_iff_running (w : world) : Prop :=
  joinable (m_Thread (this w)) = m_WasRunningBeforeFork (this w).

(** A third one: while the flag is set the acceptor listens. *)
Definition running_listens (w : world) : Prop :=
  m_WasRunningBeforeFork (this w) = true ->
  exists path backlog, m_Acceptor (this w) = acceptor_listening path backlog.

(** ** Notions the properties of a connection are stated with *)

Section ConnectionNotions.
Context `{Collaborators}.

(** The line [ProcessMessages] logs for a request whose header it accepted. *)
Definition request_log (r : http_request) : conn_event :=
  ev_log (mk_log LogInformation "DaemonControl"
            ("Request: " +:+ req_method r +:+ " " +:+ req_target r +:+ ", agent: " +:+
             field_get field_user_agent (req_fields r) +:+ ").")).

(** The header of [x] arrives, stays within 1 MiB, announces no body above
    1 MiB and asks for HTTP/1.0 or HTTP/1.1. *)
Definition header_accepted (x : exchange) (h : http_request) : Prop :=
  exists size,
    x_header x = Arrives size h /\
    (size <= 1024 * 1024)%N /\
    (forall len, req_content_length h = Some len -> (len <= 1024 * 1024)%N) /\
    (req_version h = 10%Z \/ req_version h = 11%Z).

(** The request of [x] is fully parsed as [r]: the header is accepted and
    the body arrives within 1 MiB. *)
Definition accepted (x : exchange) (r : http_request) : Prop :=
  exists h size b,
    header_accepted x h /\
    x_body x = Arrives size b /\
    (size <= 1024 * 1024)%N /\
    r = mk_request (req_method h) (req_target h) (req_version h) (req_fields h)
          (req_content_length h) b.

(** What the connection does before it answers an accepted request. *)
Definition accepted_reads (r : http_request) : list conn_event :=
  [ev_read_header; request_log r; ev_read_body].

(** The request of [x] is refused with [reason] after the connection did
    [reads]: reading or parsing the header fails, the header or the body it
    announces is above 1 MiB, the version is neither 1.0 nor 1.1, reading
    the body fails, or the body is above 1 MiB. *)
Inductive rejected (x : exchange) : list conn_event -> string -> Prop :=
| rejected_header_error code w :
    x_header x = Raises (system_error code w) ->
    rejected x [ev_read_header] w
| rejected_header_size size h :
    x_header x = Arrives size h ->
    (1024 * 1024 < size)%N ->
    rejected x [ev_read_header] "header limit exceeded"
| rejected_announced_body size h len :
    x_header x = Arrives size h ->
    (size <= 1024 * 1024)%N ->
    req_content_length h = Some len ->
    (1024 * 1024 < len)%N ->
    rejected x [ev_read_header] "body limit exceeded"
| rejected_version size h :
    x_header x = Arrives size h ->
    (size <= 1024 * 1024)%N ->
    (forall len, req_content_length h = Some len -> (len <= 1024 * 1024)%N) ->
    req_version h <> 10%Z ->
    req_version h <> 11%Z ->
    rejected x [ev_read_header] "Unsupported HTTP version"
| rejected_body_error h code w :
    header_accepted x h ->
    x_body x = Raises (system_error code w) ->
    rejected x [ev_read_header; request_log h; ev_read_body] w
| rejected_body_size h size b :
    header_accepted x h ->
    x_body x = Arrives size b ->
    (1024 * 1024 < size)%N ->
    rejected x [ev_read_header; request_log h; ev_read_body] "body limit exceeded".

(** The 400 answer: the server field, "Connection: close" and the JSON
    body [{error: 400, status: "Bad Request: <reason>"}]. *)
Definition bad_request_response (reason : string) : http_response :=
  mk_response 400 11
    [(field_server, l_ServerHeader); (field_connection, "close")]
    (JsonEncode [("error", value_number 400);
                 ("status", value_string ("Bad Request: " +:+ reason))]).

(** The 404 answer every fully parsed request gets. *)
Definition not_found_response (r : http_request) : http_response :=
  mk_response 404 11
    [(field_server, l_ServerHeader)]
    (JsonEncode [("error", value_number 404);
                 ("status", value_string
                    ("The requested path '" +:+ req_target r +:+
                     "' could not be found or the request method is not valid for this path."))]).

(** The 500 answer to an exception of the handling step. *)
Definition internal_error_response (e : exn) : http_response :=
  mk_response 500 11 []
    (JsonEncode [("error", value_number 500);
                 ("status", value_string "Unhandled exception");
                 ("diagnostic_information", value_string (DiagnosticInformation e))]).

(** The keep-alive condition: HTTP/1.1 and no "Connection: close". *)
Definition keep_alive (r : http_request) : bool :=
  bool_decide (req_version r = 11%Z) &&
  negb (bool_decide (field_get field_connection (req_fields r) = "close")).

(** The request carries a header "Connection: close": one of its fields
    is a Connection field whose value is "close". *)
Definition carries_connection_close (r : http_request) : Prop :=
  In (field_connection, "close") (req_fields r).

(** The first Connection field of the request is "close": it is there,
    spelled just so, and no Connection field comes before it. *)
Definition first_connection_is_close (r : http_request) : Prop :=
  exists before after,
    req_fields r = before ++ (field_connection, "close") :: after /\
    Forall (fun nv => fst nv <> field_connection) before.

(** The severity [ProcessMessages] logs an escaped exception with. *)
Definition is_broken_pipe (e : exn) : bool :=
  match e with
  | system_error code _ => bool_decide (code = l_EPipe)
  | _ => false
  end.

Definition escaped_log (e : exn) : conn_event :=
  ev_log (mk_log (if is_broken_pipe e then LogNotice else LogCritical) "DaemonControl"
            ("Unhandled exception while processing HTTP request: " +:+ what e)).

(** How a turn of the loop ends once the answer [resp] is decided, the
    trace being [t]: write, then flush, then [again]; an exception of the
    write or of the flush leaves the turn. *)
Definition answered (x : exchange) (t : trace) (resp : http_response) (again : bool)
  : result trace bool :=
  match x_write x, x_flush x with
  | Some e, _ => Thrown e (t ++ [ev_write resp])
  | None, Some e => Thrown e (t ++ [ev_write resp; ev_flush])
  | None, None => Returned again (t ++ [ev_write resp; ev_flush])
  end.

(** How the coroutine ends when [e] leaves the loop with trace [t]:
    [forced_unwind] goes on to the caller, anything else is logged and the
    function returns. *)
Definition escaped (e : exn) (t : trace) : result trace unit :=
  match e with
  | forced_unwind => Thrown forced_unwind t
  | _ => Returned tt (t ++ [escaped_log e])
  end.

(** The connection has answered the exchanges [before] one after the other
    and is still open: every one of these turns of the loop ended by going
    round again. [t] is the trace before them and [t'] the trace after. *)
Inductive served : list exchange -> trace -> trace -> Prop :=
| served_none t : served [] t t
| served_next x before t t1 t2 :
    ProcessMessages_iteration x t = Returned true t1 ->
    served before t1 t2 ->
    served (x :: before) t t2.

End ConnectionNotions.

(** ** Sample exchanges *)

(** [GET /nonexistent HTTP/1.1] with a Host field and no body. *)
Definition sample_request : http_request :=
  mk_request "GET" "/nonexistent" 11 [(field_other "Host", "x")] None "".

Definition sample_exchange : exchange :=
  mk_exchange (Arrives 36 sample_request) (Arrives 0 "") None None None.

(** A request that carries "Connection: keep-alive" and, after it,
    "Connection: close". *)
Definition two_connection_request : http_request :=
  mk_request "GET" "/nonexistent" 11
    [(field_other "Host", "x"); (field_connection, "keep-alive");
     (field_connection, "close")] None "".

Definition two_connection_exchange : exchange :=
  mk_exchange (Arrives 78 two_connection_request) (Arrives 0 "") None None None.

(** The same request with a header of 1 MiB and one octet. *)
Definition oversized_exchange : exchange :=
  mk_exchange (Arrives (1024 * 1024 + 1) sample_request) (Arrives 0 "") None None None.

(** The same request when building the answer runs out of memory. *)
Definition failing_exchange : exchange :=
  mk_exchange (Arrives 36 sample_request) (Arrives 0 "")
    (Some (std_exception "std::bad_alloc")) None None.

(** The same request when the peer has gone before the answer is written. *)
Definition broken_pipe_exchange : exchange :=
  mk_exchange (Arrives 36 sample_request) (Arrives 0 "") None
    (Some (system_error l_EPipe "Broken pipe")) None.

(** ** Sample inputs *)

Definition sample_collaborators : Collaborators :=
  {| InitRunDir := "/run/icinga2";
     GetAppVersion := "2.11.0";
     DiagnosticInformation := fun e => "Error: " +:+ what e;
     JsonEncode := fun d =>
       "{" +:+ String.concat ","
                 (map (fun kv => fst kv +:+ ":" +:+
                                 match snd kv with
                                 | value_number n =>
                                     if bool_decide (n = 400%Z) then "400"
                                     else if bool_decide (n = 404%Z) then "404"
                                     else "500"
                                 | value_string s => s
                                 end) d) +:+ "}" |}.

(** The operating system lets [bind] succeed and creates the file with mode
    0755. *)
Definition bind_succeeds : start_env := mk_start_env None None None 493.

(** A service right after construction and a successful [Start]. *)
Definition started_world : world :=
  match @Start sample_collaborators bind_succeeds (initial_world ∅) with
  | Returned _ w => w
  | _ => initial_world ∅
  end.

(** The same service after [BeforeFork]. *)
Definition parked_world : world :=
  match BeforeFork started_world with
  | Returned _ w => w
  | _ => started_world
  end.

(** The same service after the parent's [AfterFork]. *)
Definition started_world' : world :=
  match AfterFork true parked_world with
  | Returned _ w => w
  | _ => parked_world
  end.

(** And after a [Stop]. *)
Definition stopped_world : world :=
  match Stop started_world' with
  | Returned _ w => w
  | _ => started_world'
  end.

(** ** More notions for the lifecycle *)

Section LifecycleNotions.
Context `{Collaborators}.

(** The path [Start] binds the control socket to. *)
Definition socket_path : string := InitRunDir +:+ "/icinga2.s".

(** The acceptor, if it is bound at all, is bound to [p]. *)
Definition bound_only_at (p : string) (a : acceptor) : Prop :=
  match a with
  | acceptor_bound q | acceptor_listening q _ => q = p
  | _ => True
  end.

(** What holds of every service that can be reached: a joinable thread
    means the flag is set, a set flag means the acceptor listens, and the
    acceptor is bound nowhere but at [socket_path]. *)
Definition well_formed (w : world) : Prop :=
  thread_implies_running w /\
  running_listens w /\
  bound_only_at socket_path (m_Acceptor (this w)).

End LifecycleNotions.

(** The operating system refuses the unlink (EPERM) and then, the path
    being still taken, the bind (EADDRINUSE). *)
Definition path_in_use : start_env :=
  mk_start_env None (Some (mk_error_code 1 system_category))
    (Some (mk_error_code 98 system_category)) 493.

(** ** The accept loop *)

(** What the coroutine of the accept loop does, oldest first. *)
Inductive accept_event :=
| acc_new_Connection
| acc_async_accept
| acc_spawn_ProcessMessages
| acc_log (l : log_entry).

Definition accept_do (e : accept_event) : M (list accept_event) unit :=
  modify (fun t => t ++ [e]).

Definition put_accept_log (l : log_entry) (t : list accept_event) : list accept_event :=
  t ++ [acc_log l].

(** [DaemonControl::Connection::Start]: the coroutine that runs
    [ProcessMessages] is spawned and keeps the connection alive. *)
Definition Connection_Start : M (list accept_event) unit :=
  accept_do acc_spawn_ProcessMessages.

(** The [for (;;)] of [RunAcceptLoop]. [accepts] lists what the successive
    calls of [async_accept] meet: a peer ([None]) or an exception; when the
    list is used up the coroutine stays suspended in the next accept. *)
Fixpoint RunAcceptLoop_loop (accepts : list (option exn)) : M (list accept_event) unit :=
  match accepts with
  | [] =>
      accept_do acc_new_Connection ;;;
      accept_do acc_async_accept ;;;
      (fun t => Blocked t)
  | o :: accepts' =>
      accept_do acc_new_Connection ;;;
      accept_do acc_async_accept ;;;
      raise_if o ;;;
      Connection_Start ;;;
      RunAcceptLoop_loop accepts'
  end.

(** [DaemonControl::RunAcceptLoop] *)
Definition RunAcceptLoop (accepts : list (option exn)) : M (list accept_event) unit :=
  try_catch
    (RunAcceptLoop_loop accepts)
    (fun ex =>
       match ex with
       | forced_unwind => Some (throw ex)
       | _ =>
           Some (Log put_accept_log LogCritical "DaemonControl"
                   ("Cannot accept new connection: " +:+ what ex))
       end).

(** What the loop does for one peer it accepts. *)
Definition accepted_peer : list accept_event :=
  [acc_new_Connection; acc_async_accept; acc_spawn_ProcessMessages].

(** ** More notions for a connection *)

(** The state a call ends in, if the process is still there. *)
Definition final_state {S A} (r : result S A) : option S :=
  match r with
  | Returned _ s | Thrown _ s | Blocked s => Some s
  | Terminated => None
  end.

(** In [l], which comes after the event [prev], every read of a header
    comes right after a flush. *)
Fixpoint reads_follow_flush (prev : conn_event) (l : list conn_event) : bool :=
  match l with
  | [] => true
  | ev :: l' =>
      match ev, prev with
      | ev_read_header, ev_flush => reads_follow_flush ev l'
      | ev_read_header, _ => false
      | _, _ => reads_follow_flush ev l'
      end
  end.

(** No line is logged in a stretch of trace. *)
Definition nothing_logged (l : list conn_event) : bool :=
  forallb (fun ev => match ev with ev_log _ => false | _ => true end) l.

(** The responses written in a stretch of trace. *)
Fixpoint responses (l : list conn_event) : list http_response :=
  match l with
  | [] => []
  | ev_write r :: l' => r :: responses l'
  | _ :: l' => responses l'
  end.

Section ConnectionMoreNotions.
Context `{Collaborators}.

(** The three answers a turn of the loop can give: the 400, after which
    the loop stops, the 404 and the 500. *)
Definition answer_of_turn (r : http_response) (again : bool) : Prop :=
  (res_result r = 400%Z /\ again = false /\
   field_get field_server (res_fields r) = l_ServerHeader /\
   field_get field_connection (res_fields r) = "close") \/
  (res_result r = 404%Z /\ field_get field_server (res_fields r) = l_ServerHeader) \/
  (res_result r = 500%Z /\ res_fields r = []).

(** A response as this server sends them: a 400, 404 or 500; unless it is
    the 500 it carries the server header, and the 400 carries "Connection:
    close". *)
Definition well_formed_answer (r : http_response) : Prop :=
  (res_result r = 400%Z \/ res_result r = 404%Z \/ res_result r = 500%Z) /\
  (res_result r <> 500%Z -> field_get field_server (res_fields r) = l_ServerHeader) /\
  (res_result r = 400%Z -> field_get field_connection (res_fields r) = "close").

End ConnectionMoreNotions.

(** ** Validation of configuration items against type rules

    The second unit of the file: [ConfigType] and its validation of the
    attributes of a configuration item. *)

(** The three answers of a rule list that [ValidateDictionary] tells
    apart. *)
Inductive TypeValidationResult :=
| ValidationOK
| ValidationInvalidType
| ValidationUnknownField.

Global Instance TypeValidationResult_eq_dec : EqDecision TypeValidationResult.
Proof. solve_decision. Defined.

(** A [Value]: a [Dictionary], with its entries in the order the iteration
    visits them, or a value of any other type. *)
#[local] Unset Elimination Schemes.
Inductive config_value :=
| cv_scalar (s : string)
| cv_dictionary (entries : list (string * config_value)).
#[local] Set Elimination Schemes.

(** [value.IsObjectType<Dictionary>()] *)
Definition IsObjectType_Dictionary (value : config_value) : bool :=
  match value with
  | cv_dictionary _ => true
  | cv_scalar _ => false
  end.

(** What [ConfigType] uses of [TypeRuleList] and [DebugInfo], which are
    declared elsewhere: the types, the empty rule list the constructor
    makes, and [ruleList->Validate(key, value, &subRuleList)], which
    answers and may hand out a rule list for the entries of [value]. *)
Class TypeRules := {
  TypeRuleList : Type;
  DebugInfo : Type;
  TypeRuleList_new : TypeRuleList;
  TypeRuleList_Validate :
    TypeRuleList -> string -> config_value -> TypeValidationResult * option TypeRuleList
}.

(** An entry of the error list of the compiler context: the boolean and
    the message that were handed to [AddError]. *)
Record ConfigCompilerError := mk_ConfigCompilerError {
  error_flag : bool;
  error_message : string
}.

(** [ConfigCompilerContext::GetContext()->AddError(flag, message)] *)
Definition AddError (flag : bool) (message : string)
  : M (list ConfigCompilerError) unit :=
  modify (fun errors => errors ++ [mk_ConfigCompilerError flag message]).

Section ConfigType.
Context `{TypeRules}.

Record ConfigType := mk_ConfigType {
  m_Name : string;
  m_Parent : string;
  m_RuleList : TypeRuleList;
  m_DebugInfo : DebugInfo
}.

(** [ConfigType::ConfigType(name, debuginfo)] *)
Definition ConfigType_ctor (name : string) (debuginfo : DebugInfo) : ConfigType :=
  mk_ConfigType name "" TypeRuleList_new debuginfo.

(** [GetName], [GetParent], [SetParent], [GetRuleList], [GetDebugInfo] *)
Definition GetName (self : ConfigType) : string := m_Name self.
Definition GetParent (self : ConfigType) : string := m_Parent self.
Definition SetParent (parent : string) (self : ConfigType) : ConfigType :=
  mk_ConfigType (m_Name self) parent (m_RuleList self) (m_DebugInfo self).
Definition GetRuleList (self : ConfigType) : TypeRuleList := m_RuleList self.
Definition GetDebugInfo (self : ConfigType) : DebugInfo := m_DebugInfo self.

(** The loop of [ValidateDictionary] over the rule lists, for one
    attribute: the overall result and the sub rule lists gathered so far
    are carried along, and the first list that answers OK ends the loop. *)
Fixpoint ValidateDictionary_rules (ruleLists : list TypeRuleList) (key : string)
    (value : config_value) (overallResult : TypeValidationResult)
    (subRuleLists : list TypeRuleList) : TypeValidationResult * list TypeRuleList :=
  match ruleLists with
  | [] => (overallResult, subRuleLists)
  | ruleList :: ruleLists' =>
      let '(result, subRuleList) := TypeRuleList_Validate ruleList key value in
      let subRuleLists :=
        match subRuleList with
        | Some sub => subRuleLists ++ [sub]
        | None => subRuleLists
        end in
      match result with
      | ValidationOK => (ValidationOK, subRuleLists)
      | ValidationInvalidType =>
          ValidateDictionary_rules ruleLists' key value ValidationInvalidType subRuleLists
      | ValidationUnknownField =>
          ValidateDictionary_rules ruleLists' key value overallResult subRuleLists
      end
  end.

(** The loop of [ValidateDictionary] that joins the locations. *)
Fixpoint ValidateDictionary_stack (locations : list string) (first : bool) (stack : string)
  : string :=
  match locations with
  | [] => stack
  | location :: locations' =>
      let stack := if first then stack else stack +:+ " -> " in
      ValidateDictionary_stack locations' false (stack +:+ location)
  end.

(** The body of the loop of [ValidateDictionary] over the entries, for the
    entry [key], [value]. [locations] is the vector handed in by reference:
    it comes in and goes out. [recurse] is [ValidateDictionary] itself, for
    the entries of [value]. *)
Definition ValidateDictionary_entry
    (recurse : config_value -> list TypeRuleList -> list string ->
               M (list ConfigCompilerError) (list string))
    (ruleLists : list TypeRuleList) (key : string) (value : config_value)
    (locations : list string) : M (list ConfigCompilerError) (list string) :=
  let locations := locations ++ ["Attribute '" +:+ key +:+ "'"] in
  let checked := ValidateDictionary_rules ruleLists key value ValidationUnknownField [] in
  let overallResult := fst checked in
  let subRuleLists := snd checked in
  let stack := ValidateDictionary_stack locations true "" in
  match overallResult with
  | ValidationUnknownField => AddError true ("Unknown attribute: " +:+ stack)
  | ValidationInvalidType => AddError false ("Invalid type for attribute: " +:+ stack)
  | ValidationOK => ret tt
  end ;;;
  locations <-
    (if (0 <? length subRuleLists)%nat && IsObjectType_Dictionary value
     then recurse value subRuleLists locations
     else ret locations) ;;
  ret (removelast locations).

(** [ConfigType::ValidateDictionary], on the value that holds the
    dictionary. *)
Fixpoint ValidateDictionary_value (value : config_value) (ruleLists : list TypeRuleList)
    (locations : list string) {struct value}
  : M (list ConfigCompilerError) (list string) :=
  match value with
  | cv_dictionary entries =>
      (fix each (entries : list (string * config_value)) (locations : list string)
         : M (list ConfigCompilerError) (list string) :=
         match entries with
         | [] => ret locations
         | (key, value) :: entries' =>
             locations <-
               ValidateDictionary_entry ValidateDictionary_value ruleLists key value
                 locations ;;
             each entries' locations
         end) entries locations
  | cv_scalar _ => ret locations
  end.

Definition ValidateDictionary (dictionary : list (string * config_value))
    (ruleLists : list TypeRuleList) (locations : list string)
  : M (list ConfigCompilerError) (list string) :=
  ValidateDictionary_value (cv_dictionary dictionary) ruleLists locations.

(** A [ConfigItem], as far as [ValidateItem] looks at it: its name, its
    type and the dictionary [Link()] returns. *)
Record ConfigItem := mk_ConfigItem {
  item_name : string;
  item_type : string;
  item_Link : list (string * config_value)
}.

(** [ConfigType::ValidateItem]. [types] is what
    [ConfigCompilerContext::GetContext()->GetType(name)] finds. *)
Definition ValidateItem (types : gmap string ConfigType) (self : ConfigType)
    (object : ConfigItem) : M (list ConfigCompilerError) unit :=
  let attrs := item_Link object in
  let locations :=
    ["Object '" +:+ item_name object +:+ "' (Type: '" +:+ item_type object +:+ "')"] in
  let parent :=
    if bool_decide (m_Parent self = "") then
      if negb (bool_decide (GetName self = "DynamicObject")) then
        types !! "DynamicObject"
      else None
    else types !! m_Parent self in
  let ruleLists :=
    match parent with
    | Some parent => [m_RuleList parent]
    | None => []
    end in
  let ruleLists := ruleLists ++ [m_RuleList self] in
  ValidateDictionary attrs ruleLists locations ;;;
  ret tt.

(** The number of attributes of a value, nested ones included. *)
Fixpoint attributes (value : config_value) : nat :=
  match value with
  | cv_scalar _ => 0
  | cv_dictionary entries =>
      (fix each (entries : list (string * config_value)) : nat :=
         match entries with
         | [] => 0
         | (_, value) :: entries' => S (attributes value + each entries')
         end) entries
  end.

(** [value] conforms to [ruleLists]: every attribute is accepted by the
    loop over the rule lists, and where that loop gathers sub rule lists,
    the attribute's own entries conform to those. *)
Fixpoint conforms (value : config_value) (ruleLists : list TypeRuleList) : Prop :=
  match value with
  | cv_scalar _ => True
  | cv_dictionary entries =>
      (fix each (entries : list (string * config_value)) : Prop :=
         match entries with
         | [] => True
         | (key, value) :: entries' =>
             let checked :=
               ValidateDictionary_rules ruleLists key value ValidationUnknownField [] in
             fst checked = ValidationOK /\
             (snd checked = [] \/ conforms value (snd checked)) /\
             each entries'
         end) entries
  end.

(** The rule lists [ValidateItem] validates against: those of the parent
    type, if there is one and it is registered, then the type's own. *)
Inductive item_rule_lists (types : gmap string ConfigType) (self : ConfigType)
  : list TypeRuleList -> Prop :=
| rules_of_named_parent parent :
    m_Parent self <> "" ->
    types !! m_Parent self = Some parent ->
    item_rule_lists types self [m_RuleList parent; m_RuleList self]
| rules_without_named_parent :
    m_Parent self <> "" ->
    types !! m_Parent self = None ->
    item_rule_lists types self [m_RuleList self]
| rules_of_DynamicObject parent :
    m_Parent self = "" ->
    m_Name self <> "DynamicObject" ->
    types !! "DynamicObject" = Some parent ->
    item_rule_lists types self [m_RuleList parent; m_RuleList self]
| rules_without_DynamicObject :
    m_Parent self = "" ->
    m_Name self <> "DynamicObject" ->
    types !! "DynamicObject" = None ->
    item_rule_lists types self [m_RuleList self]
| rules_for_DynamicObject :
    m_Parent self = "" ->
    m_Name self = "DynamicObject" ->
    item_rule_lists types self [m_RuleList self].

End ConfigType.

(** ** More sample inputs *)

(** A file left at the socket path by an earlier instance, and a file that
    has nothing to do with the service. *)
Definition stale_files : gmap string Z :=
  {[ "/run/icinga2/icinga2.s" := 420%Z; "/etc/icinga2/icinga2.conf" := 416%Z ]}.

(** The service after [Start] and [Stop] on those files. *)
Definition cycled_world : world :=
  match @run sample_collaborators [call_Start bind_succeeds; call_Stop]
          (initial_world stale_files) with
  | Some w => w
  | None => initial_world stale_files
  end.

(** Rule lists for the samples: an attribute name comes with [None] when a
    plain value is expected and with the rules for its entries when a
    dictionary is expected. *)
#[local] Unset Elimination Schemes.
Inductive sample_rule_list :=
| sample_rule_list_of (rules : list (string * option sample_rule_list)).
#[local] Set Elimination Schemes.

Fixpoint sample_find (key : string) (rules : list (string * option sample_rule_list))
  : option (option sample_rule_list) :=
  match rules with
  | [] => None
  | (name, rule) :: rules' =>
      if bool_decide (name = key) then Some rule else sample_find key rules'
  end.

Definition sample_Validate (ruleList : sample_rule_list) (key : string)
    (value : config_value) : TypeValidationResult * option sample_rule_list :=
  match ruleList with
  | sample_rule_list_of rules =>
      match sample_find key rules with
      | None => (ValidationUnknownField, None)
      | Some None =>
          if IsObjectType_Dictionary value then (ValidationInvalidType, None)
          else (ValidationOK, None)
      | Some (Some sub) =>
          if IsObjectType_Dictionary value then (ValidationOK, Some sub)
          else (ValidationInvalidType, Some sub)
      end
  end.

Definition sample_type_rules : TypeRules :=
  {| TypeRuleList := sample_rule_list;
     DebugInfo := string;
     TypeRuleList_new := sample_rule_list_of [];
     TypeRuleList_Validate := sample_Validate |}.

(** The rules of a host: a name and a dictionary of macros. *)
Definition host_rules : sample_rule_list :=
  sample_rule_list_of
    [("alias", None); ("macros", Some (sample_rule_list_of [("address", None)]))].

(** The rules every object has. *)
Definition object_rules : sample_rule_list :=
  sample_rule_list_of [("name", None); ("alias", None)].

(** ** Properties of the lifecycle *)

Ltac world_cases w :=
  let io := fresh "io" in
  let posted := fresh "posted" in
  let a := fresh "acc" in
  let t := fresh "thr" in
  let f := fresh "flag" in
  destruct w as [[[posted ?] a t f] ? ?]; simpl in *.

Ltac run_cxx :=
  cbv [BeforeFork AfterFork Stop DaemonControl_dtor DaemonControl_dtor_body
       DaemonControl_dtor_members noexcept
       post_TerminateDaemonControl thread_join thread_assign_RunEventLoop notify_fork
       acceptor_open acceptor_bind acceptor_listen acceptor_close
       acceptor_local_endpoint_path spawn_RunAcceptLoop unlink chmod
       open_error unlink_error bind_error bind_mode
       emit set_this set_files modify get bind ret throw
       set_m_IO set_m_Acceptor set_m_Thread set_m_WasRunningBeforeFork
       this files effects m_IO m_Acceptor m_Thread m_WasRunningBeforeFork
       io_posted io_coroutines joinable].

(** C10. With the "was running" flag false, [BeforeFork] and [AfterFork]
    only notify the execution context of the fork: the object (execution
    context, acceptor, thread handle, flag) and the socket files are what
    they were, nothing is posted, joined, launched or reset, and the one
    effect is the notification. *)
Theorem fork_hooks_when_stopped (w : world) (parent : bool) :
  m_WasRunningBeforeFork (this w) = false ->
  BeforeFork w =
    Returned tt (mk_world (this w) (files w)
                   (effects w ++ [eff_notify_fork fork_prepare])) /\
  AfterFork parent w =
    Returned tt (mk_world (this w) (files w)
                   (effects w ++ [eff_notify_fork (if parent then fork_parent
                                                   else fork_child)])).
Proof.
  intros Hflag. world_cases w. subst. split; run_cxx; reflexivity.
Qed.

(** C5. The fork protocol on a running service (thread joinable, flag set).
    [BeforeFork] posts the handler that throws [TerminateDaemonControl],
    joins the thread and notifies the execution context; afterwards the
    handle is not joinable while the acceptor, the socket files and the flag
    are untouched. From there [AfterFork true] launches the thread again,
    and [AfterFork false] leaves the object as its constructor makes it. *)
Theorem fork_protocol_when_running (w : world) :
  joinable (m_Thread (this w)) = true ->
  m_WasRunningBeforeFork (this w) = true ->
  exists w1,
    BeforeFork w = Returned tt w1 /\
    effects w1 = (effects w ++ [eff_post_TerminateDaemonControl; eff_join;
                                eff_notify_fork fork_prepare])%list /\
    joinable (m_Thread (this w1)) = false /\
    m_Acceptor (this w1) = m_Acceptor (this w) /\
    m_WasRunningBeforeFork (this w1) = true /\
    m_IO (this w1) = m_IO (this w) /\
    files w1 = files w /\
    (exists w2,
       AfterFork true w1 = Returned tt w2 /\
       effects w2 = (effects w1 ++ [eff_notify_fork fork_parent; eff_thread_launch])%list /\
       this w2 = this w /\
       files w2 = files w) /\
    (exists w3,
       AfterFork false w1 = Returned tt w3 /\
       this w3 = DaemonControl_ctor /\
       files w3 = files w /\
       effects w3 = (effects w1 ++ eff_notify_fork fork_child ::
                     close_effects (m_Acceptor (this w)) ++ [eff_destroy_io])%list).
Proof.
  intros Hthr Hflag. world_cases w.
  destruct thr; [discriminate |]. subst flag.
  eexists. split; [run_cxx; reflexivity |]. simpl.
  repeat split.
  - now rewrite <- !app_assoc.
  - eexists. split; [run_cxx; reflexivity |]. simpl. repeat split.
    now rewrite <- !app_assoc.
  - destruct acc; (eexists; split; [run_cxx; reflexivity |]); simpl;
      (repeat split; try reflexivity);
      now rewrite <- !app_assoc.
Qed.

Lemma fork_protocol_when_running_witness :
  joinable (m_Thread (this started_world)) = true /\
  m_WasRunningBeforeFork (this started_world) = true /\
  exists w1,
    BeforeFork started_world = Returned tt w1 /\
    joinable (m_Thread (this w1)) = false /\
    (exists w3, AfterFork false w1 = Returned tt w3 /\ this w3 = DaemonControl_ctor).
Proof.
  split; [reflexivity |]. split; [reflexivity |].
  destruct (fork_protocol_when_running started_world eq_refl eq_refl)
    as (w1 & Hb & _ & Hj & _ & _ & _ & _ & _ & (w3 & Ha & Hc & _)).
  exists w1. split; [exact Hb |]. split; [exact Hj |].
  exists w3. split; [exact Ha | exact Hc].
Defined.

Lemma fork_hooks_when_stopped_witness :
  m_WasRunningBeforeFork (this stopped_world) = false /\
  BeforeFork stopped_world =
    Returned tt (mk_world (this stopped_world) (files stopped_world)
                   (effects stopped_world ++ [eff_notify_fork fork_prepare])) /\
  AfterFork false stopped_world =
    Returned tt (mk_world (this stopped_world) (files stopped_world)
                   (effects stopped_world ++ [eff_notify_fork fork_child])).
Proof.
  split; [reflexivity |].
  exact (fork_hooks_when_stopped stopped_world false eq_refl).
Defined.

(** C9 as stated fails for a service parked by [BeforeFork]: its thread
    handle is not joinable, and destroying it still closes the listening
    socket, through the acceptor's own destructor. *)
Lemma destructor_closes_socket_of_parked_service :
  joinable (m_Thread (this parked_world)) = false /\
  exists w',
    DaemonControl_dtor parked_world = Returned tt w' /\
    m_Acceptor (this w') = acceptor_closed /\
    ~ no_Stop_action parked_world w'.
Proof.
  split; [reflexivity |].
  eexists. split; [vm_compute; reflexivity |]. split; [reflexivity |].
  intros [_ (done & Heff & Hnone)].
  vm_compute in Heff. injection Heff as Hdone. subst done. discriminate Hnone.
Qed.

(** C9, amended. Destroying the object while the thread is joinable (and
    the acceptor listening, as [Start] leaves it) runs the whole of [Stop]:
    flag cleared, handler posted, thread joined, socket closed, path
    unlinked. Destroying it while the thread is not joinable runs no part of
    [Stop]: the flag and the socket files stay, nothing is posted, joined or
    unlinked; the acceptor's destructor alone closes the listening socket if
    it is still open. *)
Theorem destructor_effects (w : world) :
  (joinable (m_Thread (this w)) = true ->
   forall path backlog,
     m_Acceptor (this w) = acceptor_listening path backlog ->
     exists w',
       DaemonControl_dtor w = Returned tt w' /\
       effects w' = (effects w ++ [eff_post_TerminateDaemonControl; eff_join;
                                   eff_close; eff_unlink path; eff_destroy_io])%list /\
       m_WasRunningBeforeFork (this w') = false /\
       joinable (m_Thread (this w')) = false /\
       m_Acceptor (this w') = acceptor_closed /\
       files w' = delete path (files w)) /\
  (joinable (m_Thread (this w)) = false ->
   exists w',
     DaemonControl_dtor w = Returned tt w' /\
     effects w' = (effects w ++ close_effects (m_Acceptor (this w))
                             ++ [eff_destroy_io])%list /\
     m_WasRunningBeforeFork (this w') = m_WasRunningBeforeFork (this w) /\
     m_Thread (this w') = m_Thread (this w) /\
     m_Acceptor (this w') = acceptor_closed /\
     files w' = files w).
Proof.
  world_cases w. split.
  - intros Hthr path backlog ->. destruct thr; [discriminate |].
    eexists. split; [run_cxx; reflexivity |]. simpl.
    repeat split. now rewrite <- !app_assoc.
  - intros Hthr. destruct thr; [| discriminate].
    destruct acc; (eexists; split; [run_cxx; reflexivity |]); simpl;
      repeat split; now rewrite <- ?app_assoc.
Qed.

Lemma destructor_effects_witness :
  (exists w',
     DaemonControl_dtor started_world = Returned tt w' /\
     m_WasRunningBeforeFork (this w') = false /\
     files w' = ∅) /\
  (exists w',
     DaemonControl_dtor parked_world = Returned tt w' /\
     m_WasRunningBeforeFork (this w') = true /\
     files w' = files parked_world).
Proof.
  split.
  - destruct (proj1 (destructor_effects started_world) eq_refl
                "/run/icinga2/icinga2.s" INT_MAX eq_refl)
      as (w' & Hd & _ & Hf & _ & _ & Hfiles).
    exists w'. split; [exact Hd |]. split; [exact Hf |].
    rewrite Hfiles. vm_compute. reflexivity.
  - destruct (proj2 (destructor_effects parked_world) eq_refl)
      as (w' & Hd & _ & Hf & _ & _ & Hfiles).
    exists w'. split; [exact Hd |]. split; [exact Hf | exact Hfiles].
Defined.

(** C7 as stated fails between [BeforeFork] and [AfterFork]: after [Start]
    and [BeforeFork] the service is still recorded as running (and its
    socket still listens) while the thread has been joined. *)
Lemma parked_service_running_without_thread :
  @run sample_collaborators [call_Start bind_succeeds; call_BeforeFork] (initial_world ∅)
    = Some parked_world /\
  m_Acceptor (this parked_world) = acceptor_listening "/run/icinga2/icinga2.s" INT_MAX /\
  ~ (joinable (m_Thread (this parked_world)) = true <->
     state_of (this parked_world) = Running).
Proof.
  split; [vm_compute; reflexivity |]. split; [reflexivity |].
  intros [_ Hback]. specialize (Hback eq_refl). discriminate Hback.
Qed.

Section LifecycleInvariant.
Context `{Collaborators}.

Lemma exec_thread_implies_running (c : call) (w : world) :
  thread_implies_running w ->
  match exec c w with
  | Returned _ w' | Thrown _ w' => thread_implies_running w'
  | _ => True
  end.
Proof.
  unfold thread_implies_running. world_cases w. intros Hinv.
  destruct c as [[[oec |] [uec |] [ec |] mode] | | | [|]]; simpl;
    destruct acc, thr, flag; cbv [Start]; run_cxx; simpl; try done; auto.
Qed.

Lemma run_thread_implies_running (cs : list call) :
  forall w w', thread_implies_running w -> run cs w = Some w' ->
               thread_implies_running w'.
Proof.
  induction cs as [| c cs IH]; intros w w' Hinv Hrun; simpl in Hrun.
  - now simplify_eq.
  - pose proof (exec_thread_implies_running c w Hinv) as Hstep.
    destruct (exec c w); try discriminate; eauto.
Qed.

Lemma exec_running_listens (c : call) (w : world) :
  running_listens w ->
  match exec c w with
  | Returned _ w' | Thrown _ w' => running_listens w'
  | _ => True
  end.
Proof.
  unfold running_listens. world_cases w. intros Hinv.
  destruct c as [[[oec |] [uec |] [ec |] mode] | | | [|]]; simpl;
    destruct acc, thr, flag; cbv [Start]; run_cxx; simpl; try done; eauto;
    try (destruct (Hinv eq_refl) as (? & ? & ?); discriminate).
Qed.

(** A service that can be reached and whose thread is joinable listens on
    its socket. *)
Lemma joinable_service_listens (cs : list call) :
  forall w w',
    thread_implies_running w -> running_listens w -> run cs w = Some w' ->
    joinable (m_Thread (this w')) = true ->
    exists path backlog, m_Acceptor (this w') = acceptor_listening path backlog.
Proof.
  induction cs as [| c cs IH]; intros w w' Hthr Hlis Hrun; simpl in Hrun.
  - simplify_eq. auto.
  - pose proof (exec_thread_implies_running c w Hthr) as Hstep1.
    pose proof (exec_running_listens c w Hlis) as Hstep2.
    destruct (exec c w); try discriminate; eauto.
Qed.

Lemma run_app (cs1 cs2 : list call) (w : world) :
  run (cs1 ++ cs2) w = match run cs1 w with
                       | Some w1 => run cs2 w1
                       | None => None
                       end.
Proof.
  revert w. induction cs1 as [| c cs1 IH]; intros w; simpl; [reflexivity |].
  destruct (exec c w); auto.
Qed.

Lemma transition_thread_iff_running (t : transition) (w w' : world) :
  thread_iff_running w -> run (calls_of t) w = Some w' -> thread_iff_running w'.
Proof.
  unfold thread_iff_running. world_cases w. intros Hinv.
  destruct t as [[[oec |] [uec |] [ec |] mode] | | [|]]; simpl;
    destruct acc, thr, flag; try discriminate Hinv;
    cbv [Start]; run_cxx; simpl; intros; simplify_eq; done.
Qed.

Lemma transitions_thread_iff_running (ts : list transition) :
  forall w w', thread_iff_running w -> run (concat (map calls_of ts)) w = Some w' ->
               thread_iff_running w'.
Proof.
  induction ts as [| t ts IH]; intros w w' Hinv Hrun; simpl in Hrun.
  - now simplify_eq.
  - rewrite run_app in Hrun.
    destruct (run (calls_of t) w) as [w1 |] eqn:Ht; [| discriminate].
    eauto using transition_thread_iff_running.
Qed.

(** C7, amended. From a freshly constructed service, whatever [Start],
    [Stop], [BeforeFork] and [AfterFork] calls are made, a joinable thread
    handle means the service is recorded as running. The converse holds at
    every point reached by [Start], [Stop] and whole forks ([BeforeFork]
    directly followed by [AfterFork]); inside a fork of a running service
    the thread is joined and the service still counts as running. *)
Theorem thread_joinable_iff_running (fs : gmap string Z) :
  (forall cs w,
     run cs (initial_world fs) = Some w ->
     joinable (m_Thread (this w)) = true -> state_of (this w) = Running) /\
  (forall ts w,
     run (concat (map calls_of ts)) (initial_world fs) = Some w ->
     (joinable (m_Thread (this w)) = true <-> state_of (this w) = Running)).
Proof.
  split.
  - intros cs w Hrun Hthr.
    assert (thread_implies_running w) as Hinv.
    { eapply run_thread_implies_running; [| exact Hrun]. intros ?. discriminate. }
    unfold state_of. now rewrite (Hinv Hthr).
  - intros ts w Hrun.
    assert (thread_iff_running w) as Hinv.
    { eapply transitions_thread_iff_running; [| exact Hrun]. reflexivity. }
    unfold thread_iff_running in Hinv. unfold state_of. rewrite Hinv.
    destruct (m_WasRunningBeforeFork (this w)); split; congruence.
Qed.

End LifecycleInvariant.

Lemma thread_joinable_iff_running_witness :
  @run sample_collaborators
    [call_Start bind_succeeds; call_BeforeFork; call_AfterFork true]
    (initial_world ∅) = Some started_world' /\
  joinable (m_Thread (this started_world')) = true /\
  state_of (this started_world') = Running /\
  @run sample_collaborators
    (concat (map calls_of [do_Start bind_succeeds; do_Fork true; do_Stop]))
    (initial_world ∅) = Some stopped_world /\
  (joinable (m_Thread (this stopped_world)) = true <->
   state_of (this stopped_world) = Running).
Proof.
  assert (@run sample_collaborators
            [call_Start bind_succeeds; call_BeforeFork; call_AfterFork true]
            (initial_world ∅) = Some started_world') as Hrun1
    by (vm_compute; reflexivity).
  assert (@run sample_collaborators
            (concat (map calls_of [do_Start bind_succeeds; do_Fork true; do_Stop]))
            (initial_world ∅) = Some stopped_world) as Hrun2
    by (vm_compute; reflexivity).
  split; [exact Hrun1 |]. split; [reflexivity |]. split.
  - exact (proj1 (@thread_joinable_iff_running sample_collaborators ∅) _ _ Hrun1 eq_refl).
  - split; [exact Hrun2 |].
    exact (proj2 (@thread_joinable_iff_running sample_collaborators ∅) _ _ Hrun2).
Defined.

(** ** Properties of the event-loop thread *)

Section EventLoopProperties.
Context `{Collaborators}.

Lemma RunEventLoop_recoverable (e : exn) (runs : list run_outcome) (logs : list log_entry) :
  is_std_exception e = true -> e <> TerminateDaemonControl ->
  RunEventLoop (run_throws e :: runs) logs =
  RunEventLoop runs
    (logs ++ [mk_log LogCritical "DaemonControl" "Exception during I/O operation!";
              mk_log LogDebug "DaemonControl"
                ("Exception during I/O operation: " +:+ DiagnosticInformation e)]).
Proof.
  intros Hstd Hne.
  destruct e; try discriminate; try congruence;
    cbv [RunEventLoop RunEventLoop_iteration try_catch bind io_run throw ret Log modify
         put_log]; fold RunEventLoop; now rewrite <- app_assoc.
Qed.

Lemma RunEventLoop_returns_iff (runs : list run_outcome) :
  forall logs,
    (exists logs', RunEventLoop runs logs = Returned tt logs') <->
    (exists before o after,
        runs = (before ++ o :: after)%list /\
        Forall (fun o' => exists e, o' = run_throws e /\ is_std_exception e = true /\
                                    e <> TerminateDaemonControl) before /\
        (o = run_returns \/ o = run_throws TerminateDaemonControl)).
Proof.
  induction runs as [| o runs IH]; intros logs.
  - split.
    + intros [logs' Hr]. discriminate Hr.
    + intros (before & o & after & Heq & _). destruct before; discriminate Heq.
  - split.
    + intros [logs' Hr].
      destruct o as [| e].
      * exists [], run_returns, runs. auto.
      * destruct (decide (e = TerminateDaemonControl)) as [-> | Hne].
        { exists [], (run_throws TerminateDaemonControl), runs. auto. }
        destruct (is_std_exception e) eqn:Hstd.
        -- rewrite RunEventLoop_recoverable in Hr by assumption.
           destruct (proj1 (IH _) (ex_intro _ logs' Hr))
             as (before & o & after & -> & Hall & Ho).
           exists (run_throws e :: before), o, after.
           split; [reflexivity |]. split; [| exact Ho].
           constructor; eauto.
        -- destruct e; try discriminate Hstd. discriminate Hr.
    + intros (before & o' & after & Heq & Hall & Ho).
      destruct before as [| b before]; simpl in Heq; simplify_eq.
      * destruct Ho as [-> | ->]; eexists; reflexivity.
      * inversion Hall as [| ? ? (e & -> & Hstd & Hne) Hall']; subst.
        rewrite RunEventLoop_recoverable by assumption.
        apply IH. eauto 10.
Qed.

(** C6. The thread function returns exactly when a call of [m_IO.run()]
    returns or lets [TerminateDaemonControl] out, every earlier call having
    ended in another [std::exception]. Each such exception is answered by a
    critical log line and a line with its diagnostic information, and the
    loop calls [m_IO.run()] again. *)
Theorem RunEventLoop_stops_only_on_return_or_terminate
    (runs : list run_outcome) (logs : list log_entry) :
  ((exists logs', RunEventLoop runs logs = Returned tt logs') <->
   (exists before o after,
       runs = (before ++ o :: after)%list /\
       Forall (fun o' => exists e, o' = run_throws e /\ is_std_exception e = true /\
                                   e <> TerminateDaemonControl) before /\
       (o = run_returns \/ o = run_throws TerminateDaemonControl))) /\
  (forall e,
     is_std_exception e = true -> e <> TerminateDaemonControl ->
     RunEventLoop (run_throws e :: runs) logs =
     RunEventLoop runs
       (logs ++ [mk_log LogCritical "DaemonControl" "Exception during I/O operation!";
                 mk_log LogDebug "DaemonControl"
                   ("Exception during I/O operation: " +:+ DiagnosticInformation e)])).
Proof.
  split.
  - apply RunEventLoop_returns_iff.
  - intros e. apply RunEventLoop_recoverable.
Qed.

End EventLoopProperties.


(** ** Properties of a connection *)

Section ConnectionProperties.
Context `{Collaborators}.

Ltac run_conn :=
  cbv [ProcessMessages_iteration EnsureValidHeaders EnsureValidBody
       ProcessRequest handle_request bad_request
       async_read_header async_read async_write async_flush raise_if event Log
       put_conn_log try_catch bind ret throw modify
       set_header_limit set_body_limit parser_default
       header_limit body_limit parser_get what negb
       x_header x_body x_handler x_write x_flush
       req_method req_target req_version req_fields req_content_length req_body].

Lemma ltb_within (a b : N) : (a <= b)%N -> (b <? a)%N = false.
Proof. intros. apply N.ltb_ge. assumption. Qed.

Lemma ltb_above (a b : N) : (b < a)%N -> (b <? a)%N = true.
Proof. intros. apply N.ltb_lt. assumption. Qed.

Lemma ProcessMessages_iteration_rejected (x : exchange) (reads : list conn_event)
    (reason : string) (t : trace) :
  rejected x reads reason ->
  ProcessMessages_iteration x t =
  answered x (t ++ reads) (bad_request_response reason) false.
Proof.
  intros Hrej. destruct x as [hdr body handler write flush].
  destruct Hrej as [code w Hh | size h Hh Hsize | size h len Hh Hsize Hlen Hbig
                   | size h Hh Hsize Hlen H10 H11
                   | h code w (size & Hh & Hsize & Hlen & Hver) Hb
                   | h size b (hsize & Hh & Hsize & Hlen & Hver) Hb Hbig];
    simpl in *; subst.
  - run_conn. unfold answered, bad_request_response; simpl.
    destruct write, flush; simpl; rewrite <- ?app_assoc; reflexivity.
  - run_conn. rewrite (ltb_above _ _ Hsize).
    unfold answered, bad_request_response; simpl.
    destruct write, flush; simpl; rewrite <- ?app_assoc; reflexivity.
  - destruct h as [m tg v fs cl bd]; simpl in *; subst.
    run_conn. rewrite (ltb_within _ _ Hsize), (ltb_above _ _ Hbig).
    unfold answered, bad_request_response; simpl.
    destruct write, flush; simpl; rewrite <- ?app_assoc; reflexivity.
  - destruct h as [m tg v fs cl bd]; simpl in *.
    pose proof (bool_decide_eq_false_2 _ H10) as Hv10.
    pose proof (bool_decide_eq_false_2 _ H11) as Hv11.
    destruct cl as [len |]; run_conn; rewrite (ltb_within _ _ Hsize);
      [rewrite (ltb_within _ _ (Hlen len eq_refl)) |];
      cbv beta iota; rewrite Hv10, Hv11;
      unfold answered, bad_request_response; simpl;
      destruct write, flush; simpl; rewrite <- ?app_assoc; reflexivity.
  - destruct h as [m tg v fs cl bd]; simpl in *.
    assert (bool_decide (v = 10%Z) || bool_decide (v = 11%Z) = true) as Hv.
    { destruct Hver; subst; reflexivity. }
    destruct cl as [len |]; run_conn; rewrite (ltb_within _ _ Hsize);
      [rewrite (ltb_within _ _ (Hlen len eq_refl)) |];
      cbv beta iota; rewrite Hv;
      unfold answered, bad_request_response, request_log; simpl;
      destruct write, flush; simpl; rewrite <- ?app_assoc; reflexivity.
  - destruct h as [m tg v fs cl bd]; simpl in *.
    assert (bool_decide (v = 10%Z) || bool_decide (v = 11%Z) = true) as Hv.
    { destruct Hver; subst; reflexivity. }
    destruct cl as [len |]; run_conn; rewrite (ltb_within _ _ Hsize);
      [rewrite (ltb_within _ _ (Hlen len eq_refl)) |];
      cbv beta iota; rewrite Hv, (ltb_above _ _ Hbig);
      unfold answered, bad_request_response, request_log; simpl;
      destruct write, flush; simpl; rewrite <- ?app_assoc; reflexivity.
Qed.

Lemma ProcessMessages_iteration_accepted (x : exchange) (r : http_request) (t : trace) :
  accepted x r ->
  ProcessMessages_iteration x t =
  match x_handler x with
  | None => answered x (t ++ accepted_reads r) (not_found_response r) (keep_alive r)
  | Some forced_unwind => Thrown forced_unwind (t ++ accepted_reads r)
  | Some e => answered x (t ++ accepted_reads r) (internal_error_response e) (keep_alive r)
  end.
Proof.
  intros (h & bsize & b & (hsize & Hh & Hsize & Hlen & Hver) & Hb & Hbsize & ->).
  destruct x as [hdr body handler write flush].
  destruct h as [m tg v fs cl bd]; simpl in *; subst.
  assert (bool_decide (v = 10%Z) || bool_decide (v = 11%Z) = true) as Hv.
  { destruct Hver; subst; reflexivity. }
  destruct cl as [len |]; run_conn; rewrite (ltb_within _ _ Hsize);
    [rewrite (ltb_within _ _ (Hlen len eq_refl)) |];
    cbv beta iota; rewrite Hv, (ltb_within _ _ Hbsize);
    unfold answered, not_found_response, internal_error_response, request_log,
      accepted_reads, keep_alive; simpl;
    destruct (bool_decide (v = 11%Z)),
             (bool_decide (field_get field_connection fs = "close"));
    destruct handler as [[] |], write, flush; simpl; rewrite <- ?app_assoc; reflexivity.
Qed.

Lemma ProcessMessages_cons (x : exchange) (rest : list exchange) (t : trace) :
  ProcessMessages (x :: rest) t =
  match ProcessMessages_iteration x t with
  | Returned true t' => ProcessMessages rest t'
  | Returned false t' => Returned tt t'
  | Thrown e t' => escaped e t'
  | Blocked t' => Blocked t'
  | Terminated => Terminated
  end.
Proof.
  unfold ProcessMessages, try_catch. simpl. unfold bind.
  destruct (ProcessMessages_iteration x t) as [[|] t' | e t' | t' |]; try reflexivity.
  destruct e; reflexivity.
Qed.

Lemma ProcessMessages_served (before script : list exchange) (t0 t : trace) :
  served before t0 t ->
  ProcessMessages (before ++ script) t0 = ProcessMessages script t.
Proof.
  induction 1 as [t | x before t t1 t2 Hx _ IH]; simpl; [reflexivity |].
  now rewrite ProcessMessages_cons, Hx.
Qed.

Lemma ProcessMessages_escaped (script : list exchange) (t t' : trace) (e : exn) :
  ProcessMessages_loop script t = Thrown e t' ->
  ProcessMessages script t = escaped e t'.
Proof.
  intros Hloop. unfold ProcessMessages, try_catch. rewrite Hloop.
  destruct e; reflexivity.
Qed.

(** C1. Whatever was served on the connection before, a request that is
    refused (the header cannot be read or parsed, the header or the body is
    above 1 MiB, the version is neither 1.0 nor 1.1, the body cannot be
    read) is answered with the 400 response: status 400, "Connection:
    close", body [{error: 400, status: "Bad Request: <reason>"}]. The write
    is followed by the flush and the function returns; the exchanges that
    would follow are never read. Should the write or the flush itself
    throw, the exception leaves the loop and the connection ends as well. *)
Theorem bad_request_closes_connection (before : list exchange) (x : exchange)
    (rest : list exchange) (t0 t : trace) (reads : list conn_event) (reason : string) :
  served before t0 t ->
  rejected x reads reason ->
  let r400 := bad_request_response reason in
  let t1 := t ++ reads ++ [ev_write r400] in
  res_result r400 = 400%Z /\
  field_get field_connection (res_fields r400) = "close" /\
  res_body r400 =
    JsonEncode [("error", value_number 400);
                ("status", value_string ("Bad Request: " +:+ reason))] /\
  (x_write x = None -> x_flush x = None ->
   ProcessMessages (before ++ x :: rest) t0 = Returned tt (t1 ++ [ev_flush])) /\
  (forall e, x_write x = Some e ->
   ProcessMessages (before ++ x :: rest) t0 = escaped e t1) /\
  (forall e, x_write x = None -> x_flush x = Some e ->
   ProcessMessages (before ++ x :: rest) t0 = escaped e (t1 ++ [ev_flush])).
Proof.
  intros Hserved Hrej r400 t1.
  split; [reflexivity |]. split; [reflexivity |]. split; [reflexivity |].
  rewrite (ProcessMessages_served before (x :: rest) t0 t Hserved).
  pose proof (ProcessMessages_cons x rest t) as Hcons.
  rewrite (ProcessMessages_iteration_rejected x reads reason t Hrej) in Hcons.
  unfold answered in Hcons. subst t1.
  repeat split.
  - intros Hw Hf. rewrite Hw, Hf in Hcons. rewrite Hcons.
    now rewrite <- !app_assoc.
  - intros e Hw. rewrite Hw in Hcons. rewrite Hcons. now rewrite <- !app_assoc.
  - intros e Hw Hf. rewrite Hw, Hf in Hcons. rewrite Hcons.
    now rewrite <- !app_assoc.
Qed.

Lemma field_get_close_iff_first (fs : fields) :
  field_get field_connection fs = "close" <->
  exists before after,
    fs = before ++ (field_connection, "close") :: after /\
    Forall (fun nv => fst nv <> field_connection) before.
Proof.
  induction fs as [| [n v] fs IH]; simpl.
  - split; [discriminate |].
    intros (before & after & Heq & _). destruct before; discriminate Heq.
  - destruct (bool_decide_reflect (n = field_connection)) as [-> | Hn].
    + split.
      * intros ->. exists [], fs. split; [reflexivity | constructor].
      * intros (before & after & Heq & Hall).
        destruct before as [| [n' v'] before]; simpl in Heq.
        -- now injection Heq as ->.
        -- injection Heq as <- <- _. inversion Hall as [| ? ? Hhead _]; subst.
           now contradiction Hhead.
    + rewrite IH. split.
      * intros (before & after & -> & Hall).
        exists ((n, v) :: before), after. split; [reflexivity |].
        constructor; assumption.
      * intros (before & after & Heq & Hall).
        destruct before as [| [n' v'] before]; simpl in Heq.
        -- injection Heq as -> _. now contradiction Hn.
        -- injection Heq as <- <- ->. inversion Hall; subst. eauto.
Qed.

(** C2 as stated fails for a request that carries "Connection: close"
    after another Connection field: it is HTTP/1.1, it carries the header,
    its answer is written and flushed, and the loop goes round again, reads
    the next header and answers it. *)
Lemma connection_close_after_another_is_ignored :
  accepted two_connection_exchange two_connection_request /\
  carries_connection_close two_connection_request /\
  @ProcessMessages sample_collaborators [two_connection_exchange; oversized_exchange] [] =
    Returned tt
      (accepted_reads two_connection_request ++
       [ev_write (@not_found_response sample_collaborators two_connection_request);
        ev_flush] ++
       [ev_read_header;
        ev_write (@bad_request_response sample_collaborators "header limit exceeded");
        ev_flush]) /\
  @ProcessMessages sample_collaborators [two_connection_exchange; oversized_exchange] [] <>
    Returned tt
      (accepted_reads two_connection_request ++
       [ev_write (@not_found_response sample_collaborators two_connection_request);
        ev_flush]).
Proof.
  split.
  { exists two_connection_request, 0%N, "". split.
    - exists 78%N. split; [reflexivity |]. split; [discriminate |].
      split; [discriminate | right; reflexivity].
    - split; [reflexivity |]. split; [discriminate | reflexivity]. }
  split; [unfold carries_connection_close; simpl; auto |].
  split; [vm_compute; reflexivity |].
  vm_compute. discriminate.
Qed.

(** C2, amended. Whatever was served on the connection before, once the
    answer to a fully parsed request is written and flushed, the loop goes
    on to read the next request exactly when the request is HTTP/1.1 and
    its first Connection field is not "close"; otherwise (HTTP/1.0, or a
    first Connection field "close") the function returns after the answer.
    So an HTTP/1.1 request that carries no "Connection: close" at all keeps
    the connection open, while a "Connection: close" that comes after
    another Connection field, or is spelled otherwise, does not close
    it. *)
Theorem keep_alive_decides_next_iteration (before : list exchange) (x : exchange)
    (r : http_request) (rest : list exchange) (t0 t : trace) :
  served before t0 t ->
  accepted x r ->
  x_handler x <> Some forced_unwind ->
  x_write x = None ->
  x_flush x = None ->
  (keep_alive r = true <->
   req_version r = 11%Z /\ ~ first_connection_is_close r) /\
  (req_version r = 11%Z -> ~ carries_connection_close r -> keep_alive r = true) /\
  exists resp,
    let t' := t ++ accepted_reads r ++ [ev_write resp; ev_flush] in
    ProcessMessages (before ++ x :: rest) t0 =
    if keep_alive r then ProcessMessages rest t' else Returned tt t'.
Proof.
  intros Hserved Hacc Hh Hw Hf.
  assert (keep_alive r = true <->
          req_version r = 11%Z /\ ~ first_connection_is_close r) as Hkeep.
  { unfold keep_alive, first_connection_is_close.
    rewrite andb_true_iff, negb_true_iff.
    rewrite bool_decide_eq_true, bool_decide_eq_false.
    now rewrite field_get_close_iff_first. }
  split; [exact Hkeep |]. split.
  - intros Hv Hno. apply Hkeep. split; [exact Hv |].
    intros (fb & fa & Heq & _). apply Hno. unfold carries_connection_close.
    rewrite Heq. apply in_or_app. right. now left.
  - rewrite (ProcessMessages_served before (x :: rest) t0 t Hserved).
    pose proof (ProcessMessages_cons x rest t) as Hcons.
    rewrite (ProcessMessages_iteration_accepted x r t Hacc) in Hcons.
    unfold answered in Hcons. rewrite Hw, Hf in Hcons.
    destruct (x_handler x) as [e |].
    + exists (internal_error_response e).
      destruct e; try congruence;
        rewrite Hcons, <- !app_assoc; destruct (keep_alive r); reflexivity.
    + exists (not_found_response r).
      rewrite Hcons, <- !app_assoc; destruct (keep_alive r); reflexivity.
Qed.

(** C3. Whatever was served on the connection before, when the handling
    of a fully parsed request throws an exception other than
    [forced_unwind], the exception stays inside [ProcessRequest]: the 500
    response, whose JSON body carries the diagnostic information of the
    exception, is written and flushed, and the loop then takes the same
    keep-alive decision as after any answer. When the write or the flush of
    the 500 throws, that exception leaves the loop and the connection
    ends. *)
Theorem handler_exception_answered_with_500 (before : list exchange) (x : exchange)
    (r : http_request) (rest : list exchange) (t0 t : trace) (e : exn) :
  served before t0 t ->
  accepted x r ->
  x_handler x = Some e ->
  e <> forced_unwind ->
  let r500 := internal_error_response e in
  let t1 := t ++ accepted_reads r ++ [ev_write r500] in
  res_result r500 = 500%Z /\
  res_body r500 =
    JsonEncode [("error", value_number 500);
                ("status", value_string "Unhandled exception");
                ("diagnostic_information", value_string (DiagnosticInformation e))] /\
  (x_write x = None -> x_flush x = None ->
   ProcessMessages (before ++ x :: rest) t0 =
   if keep_alive r then ProcessMessages rest (t1 ++ [ev_flush])
   else Returned tt (t1 ++ [ev_flush])) /\
  (forall e', x_write x = Some e' ->
   ProcessMessages (before ++ x :: rest) t0 = escaped e' t1) /\
  (forall e', x_write x = None -> x_flush x = Some e' ->
   ProcessMessages (before ++ x :: rest) t0 = escaped e' (t1 ++ [ev_flush])).
Proof.
  intros Hserved Hacc Hh Hne r500 t1.
  split; [reflexivity |]. split; [reflexivity |].
  rewrite (ProcessMessages_served before (x :: rest) t0 t Hserved).
  pose proof (ProcessMessages_cons x rest t) as Hcons.
  rewrite (ProcessMessages_iteration_accepted x r t Hacc), Hh in Hcons.
  assert (ProcessMessages (x :: rest) t =
          match answered x (t ++ accepted_reads r) r500 (keep_alive r) with
          | Returned true t' => ProcessMessages rest t'
          | Returned false t' => Returned tt t'
          | Thrown e' t' => escaped e' t'
          | Blocked t' => Blocked t'
          | Terminated => Terminated
          end) as Hrun.
  { rewrite Hcons. destruct e; try congruence; reflexivity. }
  clear Hcons. unfold answered in Hrun. subst t1.
  repeat split.
  - intros Hw Hf. rewrite Hw, Hf in Hrun. rewrite Hrun, <- !app_assoc.
    destruct (keep_alive r); reflexivity.
  - intros e' Hw. rewrite Hw in Hrun. now rewrite Hrun, <- !app_assoc.
  - intros e' Hw Hf. rewrite Hw, Hf in Hrun. now rewrite Hrun, <- !app_assoc.
Qed.

(** C8. When an exception leaves the request/response loop, the coroutine
    logs one line and returns, unless the exception is [forced_unwind],
    which goes on to the caller with nothing logged. The line is of
    severity notice exactly for a [system_error] whose code is the
    broken-pipe code [l_EPipe], and critical for everything else. *)
Theorem escaped_exception_logged_once (script : list exchange) (t t' : trace) (e : exn) :
  ProcessMessages_loop script t = Thrown e t' ->
  (e = forced_unwind -> ProcessMessages script t = Thrown forced_unwind t') /\
  (e <> forced_unwind ->
   exists severity,
     ProcessMessages script t =
     Returned tt
       (t' ++ [ev_log (mk_log severity "DaemonControl"
                         ("Unhandled exception while processing HTTP request: "
                          +:+ what e))]) /\
     (severity = LogNotice <-> exists w, e = system_error l_EPipe w) /\
     (severity = LogCritical <-> ~ exists w, e = system_error l_EPipe w)).
Proof.
  intros Hloop. apply ProcessMessages_escaped in Hloop. split.
  - intros ->. exact Hloop.
  - intros Hne. exists (if is_broken_pipe e then LogNotice else LogCritical).
    split; [destruct e; try congruence; exact Hloop |].
    destruct e as [| | code w | w | w]; simpl;
      try (split; split; [discriminate | intros [? ?]; discriminate
                         | intros _ [? ?]; discriminate | reflexivity]).
    destruct (bool_decide_reflect (code = l_EPipe)) as [-> | Hcode].
    + split; split; eauto; try discriminate. intros Hno. exfalso. eauto.
    + split; split; try discriminate; try reflexivity.
      * intros [? ?]. congruence.
      * intros _ [? ?]. congruence.
Qed.

End ConnectionProperties.

(** *** The properties at sample exchanges *)

Lemma sample_exchange_accepted :
  accepted sample_exchange sample_request.
Proof.
  exists sample_request, 0%N, "". split.
  - exists 36%N. split; [reflexivity |]. split; [discriminate |].
    split; [discriminate | right; reflexivity].
  - split; [reflexivity |]. split; [discriminate | reflexivity].
Defined.

Lemma failing_exchange_accepted :
  accepted failing_exchange sample_request.
Proof.
  exists sample_request, 0%N, "". split.
  - exists 36%N. split; [reflexivity |]. split; [discriminate |].
    split; [discriminate | right; reflexivity].
  - split; [reflexivity |]. split; [discriminate | reflexivity].
Defined.

(** The trace of a connection that has served [sample_exchange]. *)
Lemma sample_exchange_served :
  @served sample_collaborators [sample_exchange] []
    (accepted_reads sample_request ++
     [ev_write (@not_found_response sample_collaborators sample_request); ev_flush]).
Proof.
  eapply served_next; [vm_compute; reflexivity | apply served_none].
Defined.

Lemma bad_request_closes_connection_witness :
  @served sample_collaborators [sample_exchange] []
    (accepted_reads sample_request ++
     [ev_write (@not_found_response sample_collaborators sample_request); ev_flush]) /\
  rejected oversized_exchange [ev_read_header] "header limit exceeded" /\
  @ProcessMessages sample_collaborators
    ([sample_exchange] ++ oversized_exchange :: [sample_exchange]) [] =
  Returned tt
    (((accepted_reads sample_request ++
       [ev_write (@not_found_response sample_collaborators sample_request); ev_flush]) ++
      [ev_read_header] ++
      [ev_write (@bad_request_response sample_collaborators "header limit exceeded")]) ++
     [ev_flush]).
Proof.
  assert (rejected oversized_exchange [ev_read_header] "header limit exceeded")
    as Hrej.
  { eapply rejected_header_size; reflexivity. }
  split; [exact sample_exchange_served |]. split; [exact Hrej |].
  exact (proj1 (proj2 (proj2 (proj2
           (@bad_request_closes_connection sample_collaborators [sample_exchange]
              oversized_exchange [sample_exchange] [] _ _ _
              sample_exchange_served Hrej)))) eq_refl eq_refl).
Defined.

Lemma keep_alive_decides_next_iteration_witness :
  @served sample_collaborators [sample_exchange] []
    (accepted_reads sample_request ++
     [ev_write (@not_found_response sample_collaborators sample_request); ev_flush]) /\
  accepted sample_exchange sample_request /\
  x_handler sample_exchange <> Some forced_unwind /\
  x_write sample_exchange = None /\
  x_flush sample_exchange = None /\
  keep_alive sample_request = true /\
  exists resp,
    @ProcessMessages sample_collaborators
      ([sample_exchange] ++ sample_exchange :: [oversized_exchange]) [] =
    @ProcessMessages sample_collaborators [oversized_exchange]
      ((accepted_reads sample_request ++
        [ev_write (@not_found_response sample_collaborators sample_request); ev_flush]) ++
       accepted_reads sample_request ++ [ev_write resp; ev_flush]).
Proof.
  split; [exact sample_exchange_served |].
  split; [exact sample_exchange_accepted |].
  split; [discriminate |]. split; [reflexivity |]. split; [reflexivity |].
  split; [reflexivity |].
  destruct (@keep_alive_decides_next_iteration sample_collaborators [sample_exchange]
              sample_exchange sample_request [oversized_exchange] [] _
              sample_exchange_served sample_exchange_accepted
              ltac:(discriminate) eq_refl eq_refl) as [_ [_ [resp Hrun]]].
  exists resp. exact Hrun.
Defined.

Lemma handler_exception_answered_with_500_witness :
  @served sample_collaborators [sample_exchange] []
    (accepted_reads sample_request ++
     [ev_write (@not_found_response sample_collaborators sample_request); ev_flush]) /\
  accepted failing_exchange sample_request /\
  x_handler failing_exchange = Some (std_exception "std::bad_alloc") /\
  std_exception "std::bad_alloc" <> forced_unwind /\
  @ProcessMessages sample_collaborators
    ([sample_exchange] ++ failing_exchange :: [oversized_exchange]) [] =
  @ProcessMessages sample_collaborators [oversized_exchange]
    (((accepted_reads sample_request ++
       [ev_write (@not_found_response sample_collaborators sample_request); ev_flush]) ++
      accepted_reads sample_request ++
      [ev_write (@internal_error_response sample_collaborators
                   (std_exception "std::bad_alloc"))]) ++ [ev_flush]).
Proof.
  split; [exact sample_exchange_served |].
  split; [exact failing_exchange_accepted |].
  split; [reflexivity |]. split; [discriminate |].
  exact (proj1 (proj2 (proj2
           (@handler_exception_answered_with_500 sample_collaborators [sample_exchange]
              failing_exchange sample_request [oversized_exchange] [] _ _
              sample_exchange_served failing_exchange_accepted
              eq_refl ltac:(discriminate)))) eq_refl eq_refl).
Defined.

Lemma escaped_exception_logged_once_witness :
  @ProcessMessages_loop sample_collaborators [broken_pipe_exchange; sample_exchange] [] =
    Thrown (system_error l_EPipe "Broken pipe")
      (accepted_reads sample_request ++
       [ev_write (@not_found_response sample_collaborators sample_request)]) /\
  system_error l_EPipe "Broken pipe" <> forced_unwind /\
  exists severity,
    @ProcessMessages sample_collaborators [broken_pipe_exchange; sample_exchange] [] =
    Returned tt
      ((accepted_reads sample_request ++
        [ev_write (@not_found_response sample_collaborators sample_request)]) ++
       [ev_log (mk_log severity "DaemonControl"
                  ("Unhandled exception while processing HTTP request: " +:+
                   "Broken pipe"))]) /\
    severity = LogNotice.
Proof.
  assert (@ProcessMessages_loop sample_collaborators
            [broken_pipe_exchange; sample_exchange] [] =
          Thrown (system_error l_EPipe "Broken pipe")
            (accepted_reads sample_request ++
             [ev_write (@not_found_response sample_collaborators sample_request)]))
    as Hloop by (vm_compute; reflexivity).
  split; [exact Hloop |]. split; [discriminate |].
  destruct (proj2 (@escaped_exception_logged_once sample_collaborators _ _ _ _ Hloop)
              ltac:(discriminate)) as (severity & Hrun & Hnotice & _).
  exists severity. split; [exact Hrun |].
  apply Hnotice. exists "Broken pipe". reflexivity.
Defined.

Lemma RunEventLoop_stops_only_on_return_or_terminate_witness :
  (exists logs',
     @RunEventLoop sample_collaborators
       [run_throws (std_exception "std::bad_alloc");
        run_throws TerminateDaemonControl; run_returns] [] = Returned tt logs') /\
  @RunEventLoop sample_collaborators
    [run_throws (std_exception "std::bad_alloc"); run_returns] [] =
  @RunEventLoop sample_collaborators [run_returns]
    ([] ++ [mk_log LogCritical "DaemonControl" "Exception during I/O operation!";
            mk_log LogDebug "DaemonControl"
              ("Exception during I/O operation: " +:+
               @DiagnosticInformation sample_collaborators
                 (std_exception "std::bad_alloc"))]).
Proof.
  split.
  - apply (proj1 (@RunEventLoop_stops_only_on_return_or_terminate sample_collaborators
                    _ [])).
    exists [run_throws (std_exception "std::bad_alloc")],
           (run_throws TerminateDaemonControl), [run_returns].
    split; [reflexivity |]. split; [| right; reflexivity].
    constructor; [| constructor].
    exists (std_exception "std::bad_alloc").
    split; [reflexivity |]. split; [reflexivity | discriminate].
  - apply (proj2 (@RunEventLoop_stops_only_on_return_or_terminate sample_collaborators
                    [run_returns] [])); [reflexivity | discriminate].
Defined.

(** C4 at a request whose handling throws: the 500 response that is written
    has no fields at all, so no Server field, while the 404 response to the
    same request carries it. *)
Lemma internal_error_response_lacks_server_header :
  exists r500 r404 t,
    @ProcessMessages sample_collaborators [failing_exchange] [] =
      Blocked (accepted_reads sample_request ++ [ev_write r500; ev_flush; ev_read_header]) /\
    res_result r500 = 500%Z /\
    res_fields r500 = [] /\
    field_get field_server (res_fields r500) = "" /\
    @ProcessMessages sample_collaborators [sample_exchange] [] =
      Blocked (t ++ [ev_write r404; ev_flush; ev_read_header]) /\
    res_result r404 = 404%Z /\
    field_get field_server (res_fields r404) = "Icinga/2.11.0".
Proof.
  eexists _, _, [_; _; _].
  split; [vm_compute; reflexivity |]. split; [reflexivity |].
  split; [reflexivity |]. split; [reflexivity |].
  split; [vm_compute; reflexivity |]. split; reflexivity.
Qed.

(** ** More properties of the lifecycle *)

Section LifecycleMore.
Context `{Collaborators}.

(** X1. On an object whose acceptor is closed and whose thread is not
    joinable, a [Start] that the operating system lets through returns
    with the acceptor listening at [socket_path] with backlog [INT_MAX],
    the thread launched, the flag set and one more accept loop spawned.
    The socket file then has mode 0700, whatever file was at that path
    before and whatever mode the bind created it with; no other file
    changes. *)
Theorem Start_succeeds (w : world) (env : start_env) :
  m_Acceptor (this w) = acceptor_closed ->
  joinable (m_Thread (this w)) = false ->
  open_error env = None ->
  bind_error env = None ->
  exists w',
    Start env w = Returned tt w' /\
    m_Acceptor (this w') = acceptor_listening socket_path INT_MAX /\
    joinable (m_Thread (this w')) = true /\
    m_WasRunningBeforeFork (this w') = true /\
    m_IO (this w') = mk_io (io_posted (m_IO (this w))) (S (io_coroutines (m_IO (this w)))) /\
    files w' = <[socket_path := mode_0700]> (files w) /\
    effects w' = effects w ++
      [eff_open; eff_unlink socket_path; eff_bind socket_path;
       eff_chmod socket_path mode_0700; eff_listen INT_MAX;
       eff_spawn_RunAcceptLoop; eff_thread_launch].
Proof.
  intros Hacc Hthr Hopen Hbind. world_cases w.
  destruct env as [oe [ue |] be mode]; simpl in *; subst;
    (destruct thr; [| discriminate]);
    (eexists; split; [cbv [Start]; run_cxx; reflexivity |]); simpl;
    repeat split; fold socket_path;
    rewrite ?alter_insert_eq, ?insert_delete_eq, <- ?app_assoc; reflexivity.
Qed.

(** X2. When the bind is refused, [Start] throws the [system_error] of the
    bind. Nothing was spawned or launched and the flag is as before. The
    unlink was attempted and its outcome dropped: the file that lay at
    [socket_path] is gone if the unlink went through and is still there,
    untouched, if it did not. The acceptor stays open, so that every later
    [Start] on this object throws "already open" and changes nothing. *)
Theorem Start_bind_refused (w : world) (env : start_env) (ec : error_code) :
  m_Acceptor (this w) = acceptor_closed ->
  open_error env = None ->
  bind_error env = Some ec ->
  exists msg w',
    Start env w = Thrown (system_error ec msg) w' /\
    m_Acceptor (this w') = acceptor_opened /\
    m_Thread (this w') = m_Thread (this w) /\
    m_WasRunningBeforeFork (this w') = m_WasRunningBeforeFork (this w) /\
    m_IO (this w') = m_IO (this w) /\
    files w' = match unlink_error env with
               | None => delete socket_path (files w)
               | Some _ => files w
               end /\
    effects w' = effects w ++ [eff_open; eff_unlink socket_path] /\
    forall env', exists msg',
      Start env' w' = Thrown (system_error asio_already_open msg') w'.
Proof.
  intros Hacc Hopen Hbind. world_cases w.
  destruct env as [oe [ue |] be mode]; simpl in *; subst;
    (eexists _, _; split; [cbv [Start]; run_cxx; reflexivity |]); simpl;
    repeat split;
    try (now rewrite <- !app_assoc);
    intros [oe' ue' be' mode']; eexists; cbv [Start]; run_cxx;
    destruct oe'; reflexivity.
Qed.

Lemma Start_refused_when_open (w : world) (env : start_env) :
  m_Acceptor (this w) <> acceptor_closed ->
  exists msg, Start env w = Thrown (system_error asio_already_open msg) w.
Proof.
  intros Hacc. world_cases w. destruct env as [oe ue be mode].
  destruct acc; [congruence | | |]; eexists; cbv [Start]; run_cxx;
    destruct oe; reflexivity.
Qed.

(** X4. [Stop] undoes [Start]: after both the acceptor is closed, the
    thread joined, the flag clear, nothing is left queued and the socket
    file is gone; only the accept loop that was spawned stays with the
    execution context. A second [Start] then succeeds and leaves the socket
    file with mode 0700. *)
Theorem Stop_undoes_Start (w : world) (env env' : start_env) :
  m_Acceptor (this w) = acceptor_closed ->
  joinable (m_Thread (this w)) = false ->
  open_error env = None -> bind_error env = None ->
  open_error env' = None -> bind_error env' = None ->
  exists w1 w2 w3,
    Start env w = Returned tt w1 /\
    Stop w1 = Returned tt w2 /\
    Start env' w2 = Returned tt w3 /\
    this w2 = mk_DaemonControl
                (mk_io (io_posted (m_IO (this w))) (S (io_coroutines (m_IO (this w)))))
                acceptor_closed not_a_thread false /\
    files w2 = delete socket_path (files w) /\
    m_Acceptor (this w3) = acceptor_listening socket_path INT_MAX /\
    joinable (m_Thread (this w3)) = true /\
    m_WasRunningBeforeFork (this w3) = true /\
    files w3 = <[socket_path := mode_0700]> (files w).
Proof.
  intros Hacc Hthr Ho Hb Ho' Hb'. world_cases w.
  destruct env as [oe [ue |] be mode], env' as [oe' [ue' |] be' mode'];
    simpl in *; subst;
    (destruct thr; [| discriminate]);
    eexists _, _, _;
    (split; [cbv [Start]; run_cxx; reflexivity |]);
    (split; [run_cxx; reflexivity |]);
    (split; [cbv [Start]; run_cxx; reflexivity |]); simpl; fold socket_path;
    repeat split;
    rewrite ?alter_insert_eq, ?delete_insert_eq, ?delete_delete_eq,
      ?insert_delete_eq, ?insert_insert_eq;
    reflexivity.
Qed.

(** X5. [Stop] on an object whose thread is not joinable does not wait: the
    join throws. By then the flag is cleared and the handler that throws
    [TerminateDaemonControl] is queued on the execution context, where it
    stays; the socket is neither closed nor unlinked. *)
Theorem Stop_when_not_joinable (w : world) :
  joinable (m_Thread (this w)) = false ->
  exists msg w',
    Stop w = Thrown (std_exception msg) w' /\
    m_WasRunningBeforeFork (this w') = false /\
    m_IO (this w') = mk_io (S (io_posted (m_IO (this w)))) (io_coroutines (m_IO (this w))) /\
    m_Acceptor (this w') = m_Acceptor (this w) /\
    m_Thread (this w') = m_Thread (this w) /\
    files w' = files w /\
    effects w' = effects w ++ [eff_post_TerminateDaemonControl].
Proof.
  intros Hthr. world_cases w. destruct thr; [| discriminate].
  eexists _, _. split; [run_cxx; reflexivity |]. simpl. repeat split.
Qed.

Lemma exec_well_formed (c : call) (w : world) :
  well_formed w ->
  match exec c w with
  | Returned _ w' | Thrown _ w' =>
      well_formed w' /\
      forall p, p <> socket_path -> files w' !! p = files w !! p
  | Blocked _ => False
  | Terminated => c = call_AfterFork true /\ joinable (m_Thread (this w)) = true
  end.
Proof.
  unfold well_formed, thread_implies_running, running_listens.
  world_cases w. intros (Hthr & Hlis & Hpath).
  destruct c as [[[oec |] [uec |] [ec |] mode] | | | [|]]; simpl;
    destruct acc, thr, flag; simpl in *; subst;
    try (specialize (Hthr eq_refl); discriminate Hthr);
    try (destruct (Hlis eq_refl) as (? & ? & ?); discriminate);
    cbv [Start]; run_cxx; simpl; fold socket_path;
    repeat split; intros; try done; eauto;
    rewrite ?lookup_alter_ne, ?lookup_insert_ne, ?lookup_delete_ne by done; done.
Qed.

Lemma run_well_formed (cs : list call) :
  forall w w',
    well_formed w -> run cs w = Some w' ->
    well_formed w' /\ forall p, p <> socket_path -> files w' !! p = files w !! p.
Proof.
  induction cs as [| c cs IH]; intros w w' Hwf Hrun; simpl in Hrun.
  - simplify_eq. auto.
  - pose proof (exec_well_formed c w Hwf) as Hstep.
    destruct (exec c w) as [[] w1 | e w1 | |]; try discriminate;
      destruct Hstep as [Hwf1 Hframe];
      destruct (IH _ _ Hwf1 Hrun) as [Hwf' Hframe'];
      (split; [exact Hwf' |]); intros p Hp;
      now rewrite Hframe', Hframe.
Qed.

Lemma initial_world_well_formed (fs : gmap string Z) : well_formed (initial_world fs).
Proof.
  repeat split; simpl; try done.
Qed.

(** X3. On a service that can be reached from a freshly constructed one
    and is recorded as running (started, or parked for a fork), a further
    [Start] throws "already open" before it touches anything: the socket
    file of the running service is not unlinked, no second accept loop is
    spawned and no second thread is launched. *)
Theorem Start_on_running_service_refused (fs : gmap string Z) (cs : list call)
    (w : world) (env : start_env) :
  run cs (initial_world fs) = Some w ->
  m_WasRunningBeforeFork (this w) = true ->
  exists msg, Start env w = Thrown (system_error asio_already_open msg) w.
Proof.
  intros Hrun Hflag.
  destruct (run_well_formed cs _ _ (initial_world_well_formed fs) Hrun)
    as [(_ & Hlis & _) _].
  destruct (Hlis Hflag) as (path & backlog & Hacc).
  apply Start_refused_when_open. rewrite Hacc. discriminate.
Qed.

(** X20. Destroying a service that can be reached from a freshly
    constructed one never ends the process: the [Stop] the destructor runs
    for a joinable thread does not throw. Afterwards the acceptor is closed
    and no thread is left, and no file other than the one at [socket_path]
    has changed. *)
Theorem destructor_of_reachable_service (fs : gmap string Z) (cs : list call)
    (w : world) :
  run cs (initial_world fs) = Some w ->
  exists w',
    DaemonControl_dtor w = Returned tt w' /\
    m_Acceptor (this w') = acceptor_closed /\
    joinable (m_Thread (this w')) = false /\
    forall p, p <> socket_path -> files w' !! p = fs !! p.
Proof.
  intros Hrun.
  destruct (run_well_formed cs _ _ (initial_world_well_formed fs) Hrun)
    as [(Hthr & Hlis & Hpath) Hframe].
  unfold thread_implies_running, running_listens in *. world_cases w.
  destruct thr.
  - destruct acc; (eexists; split; [run_cxx; reflexivity |]); simpl;
      repeat split; exact Hframe.
  - specialize (Hthr eq_refl). subst flag.
    destruct (Hlis eq_refl) as (path & backlog & ->). simpl in Hpath. subst path.
    eexists. split; [run_cxx; reflexivity |]. simpl. repeat split.
    intros p Hp. rewrite lookup_delete_ne by done. now apply Hframe.
Qed.

(** X6. On a service that can be reached from a freshly constructed one,
    the only lifecycle call that ends the process is [AfterFork true] on a
    service whose thread is still joinable, that is, in a parent that did
    not call [BeforeFork]: that call ends the process, and no other call
    does. *)
Theorem only_unprepared_parent_fork_terminates (fs : gmap string Z) (cs : list call)
    (w : world) (c : call) :
  run cs (initial_world fs) = Some w ->
  (exec c w = Terminated <->
   c = call_AfterFork true /\ joinable (m_Thread (this w)) = true).
Proof.
  intros Hrun.
  destruct (run_well_formed cs _ _ (initial_world_well_formed fs) Hrun) as [Hwf _].
  pose proof (exec_well_formed c w Hwf) as Hstep.
  pose proof (proj1 Hwf) as Hthr. unfold thread_implies_running in Hthr.
  split.
  - intros Heq. now rewrite Heq in Hstep.
  - intros [-> Hj]. specialize (Hthr Hj). world_cases w.
    destruct thr; [discriminate |]. subst. reflexivity.
Qed.

(** X7. Whatever sequence of [Start], [Stop], [BeforeFork] and [AfterFork]
    is made on a freshly constructed service, no file other than the one at
    [socket_path] is created, changed or removed. *)
Theorem only_socket_path_touched (fs : gmap string Z) (cs : list call) (w : world)
    (p : string) :
  run cs (initial_world fs) = Some w ->
  p <> socket_path ->
  files w !! p = fs !! p.
Proof.
  intros Hrun Hp.
  destruct (run_well_formed cs _ _ (initial_world_well_formed fs) Hrun) as [_ Hframe].
  now rewrite Hframe.
Qed.

End LifecycleMore.

(** ** Properties of the accept loop *)

Lemma RunAcceptLoop_loop_peers (n : nat) (accepts : list (option exn))
    (t : list accept_event) :
  RunAcceptLoop_loop (replicate n None ++ accepts) t =
  RunAcceptLoop_loop accepts (t ++ concat (replicate n accepted_peer)).
Proof.
  revert t. induction n as [| n IH]; intros t; simpl.
  - now rewrite app_nil_r.
  - unfold bind at 1 2 3 4. simpl. rewrite IH. f_equal.
    rewrite <- !app_assoc. reflexivity.
Qed.

(** X8. The accept loop starts one connection for every peer it accepts,
    in order, and goes back to accepting. The first accept that throws ends
    it: [forced_unwind] goes on to the caller with nothing logged; any other
    exception is logged once at critical severity and the function returns,
    so that no further peer is accepted. While accepts succeed the loop
    never returns. *)
Theorem RunAcceptLoop_until_first_failure (n : nat) (e : exn) (rest : list (option exn))
    (t : list accept_event) :
  let t' := t ++ concat (replicate n accepted_peer)
              ++ [acc_new_Connection; acc_async_accept] in
  RunAcceptLoop (replicate n None) t = Blocked t' /\
  RunAcceptLoop (replicate n None ++ Some e :: rest) t =
    match e with
    | forced_unwind => Thrown forced_unwind t'
    | _ =>
        Returned tt
          (t' ++ [acc_log (mk_log LogCritical "DaemonControl"
                             ("Cannot accept new connection: " +:+ what e))])
    end.
Proof.
  intros t'. subst t'. split.
  - unfold RunAcceptLoop, try_catch.
    rewrite <- (app_nil_r (replicate n None)), RunAcceptLoop_loop_peers. simpl.
    unfold bind, accept_do, modify. rewrite <- !app_assoc. reflexivity.
  - unfold RunAcceptLoop, try_catch. rewrite RunAcceptLoop_loop_peers. simpl.
    destruct e; cbv [bind accept_do modify raise_if throw Log put_accept_log what];
      rewrite <- !app_assoc; reflexivity.
Qed.

(** ** More properties of a connection *)

Section ConnectionMore.
Context `{Collaborators}.

Ltac eval_conn :=
  cbv [ProcessMessages_iteration EnsureValidHeaders EnsureValidBody
       ProcessRequest handle_request bad_request
       async_read_header async_read async_write async_flush raise_if event Log
       put_conn_log try_catch bind ret throw modify
       set_header_limit set_body_limit parser_default
       header_limit body_limit parser_get what negb
       x_header x_body x_handler x_write x_flush
       req_method req_target req_version req_fields req_content_length req_body].

Lemma bad_request_answer (reason : string) :
  answer_of_turn (bad_request_response reason) false.
Proof. left. repeat split. Qed.

Lemma header_cases (x : exchange) :
  ((forall h, ~ header_accepted x h) /\
   ((exists reason, rejected x [ev_read_header] reason) \/
    (exists w, x_header x = Raises (invalid_argument w)) \/
    (exists e, x_header x = Raises e /\
               match e with system_error _ _ | invalid_argument _ => False | _ => True end))) \/
  (exists h, header_accepted x h).
Proof.
  destruct x as [hdr body handler write flush]; simpl.
  destruct hdr as [size h | e].
  - destruct (N.le_gt_cases size (1024 * 1024)) as [Hsize | Hsize].
    2: { left. split.
         - intros h' (size' & Hh & Hs & _); simpl in Hh. injection Hh as <- <-. lia.
         - left; eexists; eapply rejected_header_size; [reflexivity | exact Hsize]. }
    assert ((exists len, req_content_length h = Some len /\ (1024 * 1024 < len)%N) \/
            (forall len, req_content_length h = Some len -> (len <= 1024 * 1024)%N))
      as [(len & Hlen & Hbig) | Hlen].
    { destruct (req_content_length h) as [len |]; [| right; intros; discriminate].
      destruct (N.le_gt_cases len (1024 * 1024)); [right | left; eauto].
      intros ? [= <-]. assumption. }
    { left. split.
      - intros h' (size' & Hh & _ & Hl & _); simpl in Hh. injection Hh as <- <-.
        specialize (Hl len Hlen). lia.
      - left. eexists. eapply rejected_announced_body; eauto. }
    destruct (decide (req_version h = 10%Z)) as [H10 | H10];
      [right; exists h, size; auto |].
    destruct (decide (req_version h = 11%Z)) as [H11 | H11];
      [right; exists h, size; auto |].
    left. split.
    + intros h' (size' & Hh & _ & _ & Hv); simpl in Hh. injection Hh as <- <-.
      destruct Hv; contradiction.
    + left. eexists. eapply rejected_version; eauto.
  - left. split; [intros h' (size' & Hh & _); discriminate Hh |].
    destruct e as [| | code w | w | w].
    + right; right. eexists. split; [reflexivity | exact I].
    + right; right. eexists. split; [reflexivity | exact I].
    + left. eexists. eapply rejected_header_error. reflexivity.
    + right; left. eauto.
    + right; right. eexists. split; [reflexivity | exact I].
Qed.

(** What a turn of the loop does, whatever the exchange: it reads, and then
    either an exception of a read or [forced_unwind] from the handling step
    leaves it before anything is written, or it gives one answer. *)
Lemma ProcessMessages_iteration_shape (x : exchange) (t : trace) :
  exists reads,
    ((reads = [ev_read_header] /\ forall h, ~ header_accepted x h) \/
     (exists h, header_accepted x h /\
                reads = [ev_read_header; request_log h; ev_read_body])) /\
    ((exists e, ProcessMessages_iteration x t = Thrown e (t ++ reads)) \/
     (exists r again,
        ProcessMessages_iteration x t = answered x (t ++ reads) r again /\
        answer_of_turn r again)).
Proof.
  destruct (header_cases x)
    as [[Hnot [[reason Hrej] | [[w Hh] | (e & Hh & He)]]] | [h Hacc]].
  - exists [ev_read_header]. split; [auto |]. right.
    exists (bad_request_response reason), false.
    split; [now apply ProcessMessages_iteration_rejected | apply bad_request_answer].
  - exists [ev_read_header]. split; [auto |]. right.
    exists (bad_request_response w), false.
    split; [| apply bad_request_answer].
    destruct x as [hdr body handler write flush]; simpl in *; subst.
    eval_conn. unfold answered, bad_request_response; simpl.
    destruct write, flush; simpl; rewrite <- ?app_assoc; reflexivity.
  - exists [ev_read_header]. split; [auto |]. left. exists e.
    destruct x as [hdr body handler write flush]; simpl in *; subst.
    destruct e; try contradiction; reflexivity.
  - exists [ev_read_header; request_log h; ev_read_body].
    split; [right; eauto |].
    change [ev_read_header; request_log h; ev_read_body] with (accepted_reads h).
    destruct (x_body x) as [bsize b | e] eqn:Hb.
    + destruct (N.le_gt_cases bsize (1024 * 1024)) as [Hsize | Hsize].
      * set (r := mk_request (req_method h) (req_target h) (req_version h)
                    (req_fields h) (req_content_length h) b).
        assert (accepted x r) as Hr by (exists h, bsize, b; auto).
        change (accepted_reads h) with (accepted_reads r).
        rewrite (ProcessMessages_iteration_accepted x r t Hr).
        destruct (x_handler x) as [[] |].
        all: try (right; eexists _, _; split; [reflexivity |];
                  solve [right; left; split; reflexivity
                        | right; right; split; reflexivity]).
        left. eauto.
      * right.
        exists (bad_request_response "body limit exceeded"), false.
        split; [| apply bad_request_answer].
        apply ProcessMessages_iteration_rejected.
        eapply rejected_body_size; eauto.
    + assert ((exists code w, e = system_error code w) \/
              match e with system_error _ _ => False | _ => True end)
        as [(code & w & ->) | Hne]
        by (destruct e; eauto).
      * right.
        exists (bad_request_response w), false.
        split; [| apply bad_request_answer].
        apply ProcessMessages_iteration_rejected.
        eapply rejected_body_error; eauto.
      * left. exists e.
        destruct Hacc as (hsize & Hh & Hsize & Hlen & Hver).
        destruct x as [hdr body handler write flush].
        destruct h as [m tg v fs cl bd]; simpl in *; subst.
        assert (bool_decide (v = 10%Z) || bool_decide (v = 11%Z) = true) as Hv.
        { destruct Hver; subst; reflexivity. }
        destruct cl as [len |]; eval_conn;
          rewrite (proj2 (N.ltb_ge _ _) Hsize);
          [rewrite (proj2 (N.ltb_ge _ _) (Hlen len eq_refl)) |];
          cbv beta iota; rewrite Hv;
          unfold accepted_reads, request_log; simpl;
          destruct e; simpl; rewrite <- ?app_assoc; try reflexivity;
          contradiction.
Qed.

Lemma answer_of_turn_well_formed (r : http_response) (again : bool) :
  answer_of_turn r again -> well_formed_answer r.
Proof.
  intros [(Hr & _ & Hs & Hc) | [(Hr & Hs) | (Hr & Hf)]]; unfold well_formed_answer;
    rewrite Hr; repeat split; auto; try discriminate; congruence.
Qed.

Lemma ProcessMessages_loop_cons (x : exchange) (rest : list exchange) (t : trace) :
  ProcessMessages_loop (x :: rest) t =
  match ProcessMessages_iteration x t with
  | Returned true t' => ProcessMessages_loop rest t'
  | Returned false t' => Returned tt t'
  | Thrown e t' => Thrown e t'
  | Blocked t' => Blocked t'
  | Terminated => Terminated
  end.
Proof.
  simpl. unfold bind.
  destruct (ProcessMessages_iteration x t) as [[|] t' | e t' | t' |]; reflexivity.
Qed.

Lemma reads_follow_flush_log (l : list conn_event) (entry : log_entry) :
  forall prev,
    reads_follow_flush prev l = true ->
    reads_follow_flush prev (l ++ [ev_log entry]) = true.
Proof.
  induction l as [| ev l IH]; intros prev Hl; simpl in *; [now destruct prev |].
  destruct ev, prev; try discriminate; auto.
Qed.

Lemma responses_log (l : list conn_event) (entry : log_entry) :
  responses (l ++ [ev_log entry]) = responses l.
Proof.
  induction l as [| ev l IH]; simpl; [reflexivity |].
  destruct ev; simpl; now rewrite ?IH.
Qed.

(** The trace of the loop: it starts with the read of a header; later reads
    of a header come right after a flush; the responses are well formed
    and no more than the exchanges of the script. *)
Lemma ProcessMessages_loop_trace (script : list exchange) :
  forall t, exists new,
    final_state (ProcessMessages_loop script t) = Some (t ++ ev_read_header :: new) /\
    reads_follow_flush ev_read_header new = true /\
    Forall well_formed_answer (responses new) /\
    length (responses new) <= length script.
Proof.
  induction script as [| x script IH]; intros t.
  - exists []. repeat split; simpl; auto.
  - rewrite ProcessMessages_loop_cons.
    destruct (ProcessMessages_iteration_shape x t)
      as (reads & Hreads & [(e & Hit) | (r & again & Hit & Hans)]); rewrite Hit.
    + destruct Hreads as [[-> _] | (h & _ & ->)]; eexists; (split; [reflexivity |]);
        simpl; repeat split; auto; lia.
    + pose proof (answer_of_turn_well_formed r again Hans) as Hok.
      unfold answered.
      destruct (x_write x) as [e |]; [| destruct (x_flush x) as [e |]];
        [| | destruct again].
      * destruct Hreads as [[-> _] | (h & _ & ->)]; simpl;
          rewrite <- !app_assoc; simpl; eexists; (split; [reflexivity |]);
          simpl; repeat split; auto; lia.
      * destruct Hreads as [[-> _] | (h & _ & ->)]; simpl;
          rewrite <- !app_assoc; simpl; eexists; (split; [reflexivity |]);
          simpl; repeat split; auto; lia.
      * destruct (IH ((t ++ reads) ++ [ev_write r; ev_flush]))
          as (new & Hfinal & Hseq & Hall & Hlen).
        rewrite Hfinal.
        destruct Hreads as [[-> _] | (h & _ & ->)]; simpl;
          rewrite <- !app_assoc; simpl; eexists; (split; [reflexivity |]);
          simpl; repeat split; auto; lia.
      * destruct Hreads as [[-> _] | (h & _ & ->)]; simpl;
          rewrite <- !app_assoc; simpl; eexists; (split; [reflexivity |]);
          simpl; repeat split; auto; lia.
Qed.

Lemma ProcessMessages_trace (script : list exchange) (t : trace) :
  exists new,
    final_state (ProcessMessages script t) = Some (t ++ ev_read_header :: new) /\
    reads_follow_flush ev_read_header new = true /\
    Forall well_formed_answer (responses new) /\
    length (responses new) <= length script /\
    match ProcessMessages script t with
    | Thrown e _ => e = forced_unwind
    | _ => True
    end.
Proof.
  destruct (ProcessMessages_loop_trace script t) as (new & Hfinal & Hseq & Hall & Hlen).
  unfold ProcessMessages, try_catch.
  destruct (ProcessMessages_loop script t) as [[] t' | e t' | t' |];
    simpl in Hfinal; simplify_eq.
  - exists new. simpl. auto.
  - destruct e; simpl;
      try (exists new; simpl; now auto);
      (eexists (new ++ [_]); split;
       [unfold Log, modify, put_conn_log; simpl;
        rewrite <- app_assoc; reflexivity |]);
      rewrite responses_log; repeat split; auto using reads_follow_flush_log.
  - exists new. simpl. auto.
Qed.

Lemma reads_follow_flush_spec (l : list conn_event) :
  forall prev l1 ev l2,
    reads_follow_flush prev l = true ->
    prev :: l = l1 ++ ev :: ev_read_header :: l2 ->
    ev = ev_flush.
Proof.
  induction l as [| ev' l IH]; intros prev l1 ev l2 Hl Heq.
  - destruct l1 as [| ? [| ? ?]]; discriminate.
  - destruct l1 as [| a l1]; simpl in Heq.
    + injection Heq as -> -> ->. simpl in Hl.
      destruct ev; try discriminate. reflexivity.
    + injection Heq as -> Heq. apply (IH ev' l1 ev l2); [| exact Heq].
      simpl in Hl. destruct ev', a; try discriminate; assumption.
Qed.

(** X9. No exception other than [forced_unwind] leaves [ProcessMessages],
    whatever the peer and the handling step do: the failure of a connection
    never reaches the event loop. *)
Theorem ProcessMessages_lets_only_forced_unwind_out (script : list exchange) (t : trace) :
  match ProcessMessages script t with
  | Returned _ _ | Blocked _ => True
  | Thrown e _ => e = forced_unwind
  | Terminated => False
  end.
Proof.
  destruct (ProcessMessages_trace script t) as (new & Hfinal & _ & _ & _ & Hout).
  destruct (ProcessMessages script t); try exact I; [exact Hout | discriminate].
Qed.

(** X10. A turn of the loop that comes to its end has answered the request
    exactly once, and the last two things it did were to write that answer
    and to flush it. The answer is the 400, the 404 or the 500; after the
    400 the loop does not go round again. *)
Theorem one_answer_per_turn (x : exchange) (t t' : trace) (again : bool) :
  ProcessMessages_iteration x t = Returned again t' ->
  exists reads r,
    t' = t ++ reads ++ [ev_write r; ev_flush] /\
    responses reads = [] /\
    well_formed_answer r /\
    (again = true -> res_result r <> 400%Z).
Proof.
  intros Hret.
  destruct (ProcessMessages_iteration_shape x t)
    as (reads & Hreads & [(e & Hit) | (r & again' & Hit & Hans)]);
    rewrite Hit in Hret; [discriminate |].
  unfold answered in Hret.
  destruct (x_write x); [discriminate |]. destruct (x_flush x); [discriminate |].
  simplify_eq. exists reads, r. split; [now rewrite <- app_assoc |].
  split; [destruct Hreads as [[-> _] | (h & _ & ->)]; reflexivity |].
  split; [eauto using answer_of_turn_well_formed |].
  intros ->. destruct Hans as [(_ & Hno & _) | [(Hr & _) | (Hr & _)]];
    [discriminate | |]; rewrite Hr; discriminate.
Qed.

(** X11. Requests on a connection are served strictly one after the other:
    in what [ProcessMessages] does, the first event is the read of a header,
    and every later read of a header comes right after the flush of the
    previous answer. *)
Theorem no_read_before_flush (script : list exchange) (t : trace) :
  exists new,
    final_state (ProcessMessages script t) = Some (t ++ ev_read_header :: new) /\
    forall before ev after,
      ev_read_header :: new = before ++ ev :: ev_read_header :: after ->
      ev = ev_flush.
Proof.
  destruct (ProcessMessages_trace script t) as (new & Hfinal & Hseq & _).
  exists new. split; [exact Hfinal |].
  intros before ev after Heq. eapply reads_follow_flush_spec; eauto.
Qed.

(** X12. Every response written on a connection is a 400, a 404 or a 500;
    the 400 and the 404 carry the server header, and the 400 carries
    "Connection: close". There are at most as many responses as requests
    the peer made. *)
Theorem responses_of_a_connection (script : list exchange) (t : trace) :
  exists new,
    final_state (ProcessMessages script t) = Some (t ++ new) /\
    Forall well_formed_answer (responses new) /\
    length (responses new) <= length script.
Proof.
  destruct (ProcessMessages_trace script t) as (new & Hfinal & _ & Hall & Hlen & _).
  exists (ev_read_header :: new). simpl. auto.
Qed.

(** X19. A request is logged exactly when its header is accepted: then
    the line with method, target and user agent is logged once, right after
    the header is read and before the body is, and the turn logs nothing
    else. For any other exchange (the header cannot be read, is too large,
    announces too large a body or carries another version) the turn logs
    nothing. *)
Theorem request_logged_iff_header_accepted (x : exchange) (t : trace) :
  exists new,
    final_state (ProcessMessages_iteration x t) = Some (t ++ ev_read_header :: new) /\
    ((exists h tail,
        header_accepted x h /\
        new = request_log h :: ev_read_body :: tail /\
        nothing_logged tail = true) \/
     ((forall h, ~ header_accepted x h) /\ nothing_logged new = true)).
Proof.
  destruct (ProcessMessages_iteration_shape x t)
    as (reads & Hreads & [(e & Hit) | (r & again & Hit & _)]); rewrite Hit.
  - destruct Hreads as [[-> Hnot] | (h & Hacc & ->)]; eexists;
      (split; [reflexivity |]); [right; auto | left; exists h, []; auto].
  - unfold answered.
    destruct Hreads as [[-> Hnot] | (h & Hacc & ->)];
      destruct (x_write x), (x_flush x); simpl; rewrite <- ?app_assoc; simpl;
      eexists; (split; [reflexivity |]);
      solve [right; auto | left; eexists h, _; auto].
Qed.

End ConnectionMore.

(** ** Properties of the validation against type rules *)

Section ConfigTypeProperties.
Context `{TypeRules}.

Lemma string_append_assoc (s1 s2 s3 : string) :
  (s1 +:+ s2) +:+ s3 = s1 +:+ s2 +:+ s3.
Proof.
  induction s1 as [| c s1 IH]; [reflexivity |].
  change (String c ((s1 +:+ s2) +:+ s3) = String c (s1 +:+ s2 +:+ s3)).
  now rewrite IH.
Qed.

Lemma ValidateDictionary_stack_from (locations : list string) :
  forall stack location,
    ValidateDictionary_stack locations false (stack +:+ location) =
    stack +:+ String.concat " -> " (location :: locations).
Proof.
  induction locations as [| l locations IH]; intros stack location.
  - reflexivity.
  - change (String.concat " -> " (location :: l :: locations))
      with (location +:+ " -> " +:+ String.concat " -> " (l :: locations)).
    change (ValidateDictionary_stack (l :: locations) false (stack +:+ location))
      with (ValidateDictionary_stack locations false
              (((stack +:+ location) +:+ " -> ") +:+ l)).
    rewrite IH. now rewrite !string_append_assoc.
Qed.

Lemma ValidateDictionary_stack_joined (locations : list string) :
  ValidateDictionary_stack locations true "" = String.concat " -> " locations.
Proof.
  destruct locations as [| l locations]; [reflexivity |].
  exact (ValidateDictionary_stack_from locations "" l).
Qed.

Lemma ValidateDictionary_rules_result (ruleLists : list TypeRuleList) (key : string)
    (value : config_value) :
  forall overall subs,
    fst (ValidateDictionary_rules ruleLists key value overall subs) =
    if existsb (fun rl => bool_decide (fst (TypeRuleList_Validate rl key value)
                                       = ValidationOK)) ruleLists
    then ValidationOK
    else if existsb (fun rl => bool_decide (fst (TypeRuleList_Validate rl key value)
                                            = ValidationInvalidType)) ruleLists
         then ValidationInvalidType
         else overall.
Proof.
  induction ruleLists as [| rl ruleLists IH]; intros overall subs; simpl;
    [reflexivity |].
  destruct (TypeRuleList_Validate rl key value) as [[| |] sub]; simpl;
    [reflexivity | |]; rewrite IH;
    repeat match goal with |- context [if ?b then _ else _] => destruct b end;
    reflexivity.
Qed.

(** X13. The verdict on an attribute does not depend on the order of the
    rule lists: it is OK as soon as one rule list accepts the attribute;
    failing that, it is "invalid type" as soon as one rule list says so;
    and "unknown field" only when every rule list says so, in particular
    when there is no rule list. *)
Theorem attribute_verdict (ruleLists : list TypeRuleList) (key : string)
    (value : config_value) :
  let verdict :=
    fst (ValidateDictionary_rules ruleLists key value ValidationUnknownField []) in
  let answer rl := fst (TypeRuleList_Validate rl key value) in
  (verdict = ValidationOK <-> exists rl, In rl ruleLists /\ answer rl = ValidationOK) /\
  (verdict = ValidationInvalidType <->
   (forall rl, In rl ruleLists -> answer rl <> ValidationOK) /\
   exists rl, In rl ruleLists /\ answer rl = ValidationInvalidType) /\
  (verdict = ValidationUnknownField <->
   forall rl, In rl ruleLists -> answer rl = ValidationUnknownField).
Proof.
  intros verdict answer. subst verdict.
  rewrite ValidateDictionary_rules_result.
  set (ok := existsb _ ruleLists). set (bad := existsb _ ruleLists).
  assert (ok = true <-> exists rl, In rl ruleLists /\ answer rl = ValidationOK) as Hok.
  { unfold ok. rewrite existsb_exists. split; intros (rl & Hin & Hrl); exists rl;
      (split; [exact Hin |]); [now apply bool_decide_eq_true in Hrl
                              | now apply bool_decide_eq_true]. }
  assert (bad = true <-> exists rl, In rl ruleLists /\ answer rl = ValidationInvalidType)
    as Hbad.
  { unfold bad. rewrite existsb_exists. split; intros (rl & Hin & Hrl); exists rl;
      (split; [exact Hin |]); [now apply bool_decide_eq_true in Hrl
                              | now apply bool_decide_eq_true]. }
  clearbody ok bad.
  assert (forall rl, answer rl = ValidationOK \/ answer rl = ValidationInvalidType \/
                     answer rl = ValidationUnknownField) as Hcases
    by (intros rl; destruct (answer rl); auto).
  destruct ok.
  - destruct (proj1 Hok eq_refl) as (rl & Hin & Hrl).
    split; [tauto |]. split; split; try discriminate.
    + intros [Hno _]. now apply Hno in Hrl.
    + intros Hall. rewrite (Hall rl Hin) in Hrl. discriminate.
  - assert (forall rl, In rl ruleLists -> answer rl <> ValidationOK) as Hno.
    { intros rl Hin Hrl. enough (false = true) by discriminate. apply Hok. eauto. }
    destruct bad.
    + destruct (proj1 Hbad eq_refl) as (rl & Hin & Hrl).
      split; [split; [discriminate | intros (rl' & Hin' & Hrl'); now apply Hno in Hrl'] |].
      split; [split; eauto |]. split; [discriminate |].
      intros Hall. rewrite (Hall rl Hin) in Hrl. discriminate.
    + split; [split; [discriminate | intros (rl' & Hin' & Hrl'); now apply Hno in Hrl'] |].
      split; [split; [discriminate |] |].
      * intros [_ Hex]. apply Hbad in Hex. discriminate.
      * split; [| reflexivity]. intros _ rl Hin.
        destruct (Hcases rl) as [Hrl | [Hrl | Hrl]]; [now apply Hno in Hrl | | exact Hrl].
        enough (false = true) by discriminate. apply Hbad. eauto.
Qed.

(** X14. The loop over the rule lists stops at the first list that accepts
    the attribute: the lists after it are not asked, so the sub rule lists
    they would hand out are not used for the entries of the attribute. *)
Theorem rule_lists_after_first_OK_ignored (before after : list TypeRuleList)
    (rl : TypeRuleList) (key : string) (value : config_value)
    (overall : TypeValidationResult) (subs : list TypeRuleList) :
  fst (TypeRuleList_Validate rl key value) = ValidationOK ->
  ValidateDictionary_rules (before ++ rl :: after) key value overall subs =
  ValidateDictionary_rules (before ++ [rl]) key value overall subs.
Proof.
  intros Hok. revert overall subs.
  induction before as [| rl' before IH]; intros overall subs; simpl.
  - destruct (TypeRuleList_Validate rl key value) as [[| |] sub]; simpl in *;
      try discriminate; reflexivity.
  - destruct (TypeRuleList_Validate rl' key value) as [[| |] sub]; simpl; auto.
Qed.

Lemma config_value_induction (P : config_value -> Prop) :
  (forall s, P (cv_scalar s)) ->
  P (cv_dictionary []) ->
  (forall key value entries,
     P value -> P (cv_dictionary entries) -> P (cv_dictionary ((key, value) :: entries))) ->
  forall value, P value.
Proof.
  intros Hscalar Hnil Hcons. fix IH 1. intros [s | entries].
  - apply Hscalar.
  - induction entries as [| [key value] entries IHentries].
    + apply Hnil.
    + apply Hcons; [apply IH | apply IHentries].
Qed.

Lemma ValidateDictionary_value_cons (key : string) (value : config_value)
    (entries : list (string * config_value)) (ruleLists : list TypeRuleList)
    (locations : list string) :
  ValidateDictionary_value (cv_dictionary ((key, value) :: entries)) ruleLists locations =
  (locations <- ValidateDictionary_entry ValidateDictionary_value ruleLists key value
                  locations ;;
   ValidateDictionary_value (cv_dictionary entries) ruleLists locations).
Proof. reflexivity. Qed.

(** The error [ValidateDictionary] adds for an attribute itself. *)
Lemma ValidateDictionary_value_spec (value : config_value) :
  forall ruleLists locations errors,
  exists new,
    ValidateDictionary_value value ruleLists locations errors =
      Returned locations (errors ++ new) /\
    length new <= attributes value /\
    (new = [] <-> conforms value ruleLists).
Proof.
  induction value as [s | | key value entries IHvalue IHentries]
    using config_value_induction; intros ruleLists locations errors.
  - exists []. rewrite app_nil_r. simpl. repeat split; auto.
  - exists []. rewrite app_nil_r. simpl. repeat split; auto.
  - rewrite ValidateDictionary_value_cons.
    change (attributes (cv_dictionary ((key, value) :: entries)))
      with (S (attributes value + attributes (cv_dictionary entries))).
    change (conforms (cv_dictionary ((key, value) :: entries)) ruleLists)
      with (fst (ValidateDictionary_rules ruleLists key value ValidationUnknownField [])
              = ValidationOK /\
            (snd (ValidateDictionary_rules ruleLists key value ValidationUnknownField [])
               = [] \/
             conforms value
               (snd (ValidateDictionary_rules ruleLists key value
                       ValidationUnknownField []))) /\
            conforms (cv_dictionary entries) ruleLists).
    unfold ValidateDictionary_entry.
    destruct (ValidateDictionary_rules ruleLists key value ValidationUnknownField [])
      as [overall subs]; simpl fst; simpl snd.
    set (locations' := locations ++ ["Attribute '" +:+ key +:+ "'"]).
    set (stack := ValidateDictionary_stack locations' true "").
    assert (exists own,
              (match overall with
               | ValidationUnknownField => AddError true ("Unknown attribute: " +:+ stack)
               | ValidationInvalidType =>
                   AddError false ("Invalid type for attribute: " +:+ stack)
               | ValidationOK => ret tt
               end) errors = Returned tt (errors ++ own) /\
              length own <= 1 /\ (own = [] <-> overall = ValidationOK))
      as (own & Hown & Hownlen & Hownnil).
    { destruct overall.
      - exists []. rewrite app_nil_r. repeat split; auto.
      - eexists [_]. split; [reflexivity |]. split; [auto |]. split; discriminate.
      - eexists [_]. split; [reflexivity |]. split; [auto |]. split; discriminate. }
    assert (exists nested,
              (if (0 <? length subs)%nat && IsObjectType_Dictionary value
               then ValidateDictionary_value value subs locations'
               else ret locations') (errors ++ own) =
                Returned locations' ((errors ++ own) ++ nested) /\
              length nested <= attributes value /\
              (nested = [] <-> subs = [] \/ conforms value subs))
      as (nested & Hnested & Hnestedlen & Hnestednil).
    { destruct ((0 <? length subs)%nat && IsObjectType_Dictionary value) eqn:Hcond.
      - destruct (IHvalue subs locations' (errors ++ own)) as (nested & Hn & Hl & Hc).
        exists nested. split; [exact Hn |]. split; [exact Hl |].
        rewrite Hc. split; [auto |]. intros [-> | Hconf]; [discriminate | exact Hconf].
      - exists []. rewrite app_nil_r. split; [reflexivity |]. split; [simpl; lia |].
        split; [| reflexivity]. intros _.
        apply andb_false_iff in Hcond as [Hlen | Hdict].
        + left. destruct subs; [reflexivity | discriminate].
        + right. destruct value; [exact I | discriminate]. }
    destruct (IHentries ruleLists locations ((errors ++ own) ++ nested))
      as (rest & Hrest & Hrestlen & Hrestnil).
    exists (own ++ nested ++ rest). split; [| split].
    + unfold bind. rewrite Hown. cbv beta iota. rewrite Hnested. cbv beta iota.
      unfold ret. subst locations'. rewrite removelast_last, Hrest.
      now rewrite <- !app_assoc.
    + rewrite !length_app. lia.
    + rewrite <- Hownnil, <- Hnestednil, <- Hrestnil.
      split.
      * intros Hnil. apply app_eq_nil in Hnil as [-> Hnil].
        apply app_eq_nil in Hnil as [-> ->]. auto.
      * intros (-> & -> & ->). reflexivity.
Qed.

(** X15. [ValidateDictionary] hands the vector of locations back as it got
    it, takes no error away from the context, and adds at most one error
    for each attribute of the dictionary, nested attributes included. *)
Theorem ValidateDictionary_restores_locations
    (dictionary : list (string * config_value)) (ruleLists : list TypeRuleList)
    (locations : list string) (errors : list ConfigCompilerError) :
  exists new,
    ValidateDictionary dictionary ruleLists locations errors =
      Returned locations (errors ++ new) /\
    length new <= attributes (cv_dictionary dictionary).
Proof.
  destruct (ValidateDictionary_value_spec (cv_dictionary dictionary)
              ruleLists locations errors) as (new & Hrun & Hlen & _).
  exists new. auto.
Qed.

(** X16. [ValidateDictionary] reports nothing exactly when the dictionary
    conforms to the rule lists: every attribute is accepted by one of them,
    and so is every attribute below it that the gathered sub rule lists
    apply to. *)
Theorem ValidateDictionary_silent_iff_conforms
    (dictionary : list (string * config_value)) (ruleLists : list TypeRuleList)
    (locations : list string) (errors : list ConfigCompilerError) :
  ValidateDictionary dictionary ruleLists locations errors = Returned locations errors <->
  conforms (cv_dictionary dictionary) ruleLists.
Proof.
  destruct (ValidateDictionary_value_spec (cv_dictionary dictionary)
              ruleLists locations errors) as (new & Hrun & _ & Hnil).
  unfold ValidateDictionary. rewrite Hrun, <- Hnil. split.
  - intros Heq. injection Heq as Heq.
    rewrite <- (app_nil_r errors) in Heq at 2. now apply app_inv_head in Heq.
  - intros ->. now rewrite app_nil_r.
Qed.

(** X17. Without rule lists every attribute of the dictionary is unknown:
    [ValidateDictionary] adds, in the order of the entries, one entry
    "Unknown attribute: " followed by the locations and the attribute,
    joined by " -> ", and does not look into nested dictionaries. *)
Theorem ValidateDictionary_without_rules (dictionary : list (string * config_value))
    (locations : list string) (errors : list ConfigCompilerError) :
  ValidateDictionary dictionary [] locations errors =
  Returned locations
    (errors ++
     map (fun entry =>
            mk_ConfigCompilerError true
              ("Unknown attribute: " +:+
               String.concat " -> "
                 (locations ++ ["Attribute '" +:+ fst entry +:+ "'"])))
         dictionary).
Proof.
  unfold ValidateDictionary. revert errors.
  induction dictionary as [| [key value] dictionary IH]; intros errors.
  - simpl. now rewrite app_nil_r.
  - rewrite ValidateDictionary_value_cons. unfold ValidateDictionary_entry.
    cbn [ValidateDictionary_rules fst snd length Nat.ltb Nat.leb andb].
    unfold bind, AddError, modify, ret.
    rewrite removelast_last, IH, ValidateDictionary_stack_joined.
    rewrite <- app_assoc. reflexivity.
Qed.

(** X18. [ValidateItem] validates the attributes of the item against the
    rule list of the parent type followed by the type's own. The parent is
    the type named as parent, or "DynamicObject" for a type that names none
    and is not "DynamicObject" itself; a parent that is not registered is
    left out, and the parent's own parent is never asked. It adds at most
    one error for each attribute, and none exactly when the attributes
    conform to these rule lists. *)
Theorem ValidateItem_against_parent_and_own (types : gmap string ConfigType)
    (self : ConfigType) (object : ConfigItem) (errors : list ConfigCompilerError) :
  exists ruleLists new,
    item_rule_lists types self ruleLists /\
    ValidateItem types self object errors = Returned tt (errors ++ new) /\
    length new <= attributes (cv_dictionary (item_Link object)) /\
    (new = [] <-> conforms (cv_dictionary (item_Link object)) ruleLists).
Proof.
  assert (exists ruleLists,
            item_rule_lists types self ruleLists /\
            ValidateItem types self object =
            (ValidateDictionary (item_Link object) ruleLists
               ["Object '" +:+ item_name object +:+ "' (Type: '" +:+
                item_type object +:+ "')"] ;;; ret tt))
    as (ruleLists & Hrules & Hrun).
  { unfold ValidateItem, GetName.
    destruct (bool_decide_reflect (m_Parent self = "")) as [Hp | Hp].
    - destruct (bool_decide_reflect (m_Name self = "DynamicObject")) as [Hn | Hn]; simpl.
      + eexists. split; [now apply rules_for_DynamicObject | reflexivity].
      + destruct (types !! "DynamicObject") as [parent |] eqn:Hparent;
          eexists; (split; [| reflexivity]).
        * now apply rules_of_DynamicObject.
        * now apply rules_without_DynamicObject.
    - destruct (types !! m_Parent self) as [parent |] eqn:Hparent;
        eexists; (split; [| reflexivity]).
      + now apply rules_of_named_parent.
      + now apply rules_without_named_parent. }
  destruct (ValidateDictionary_value_spec (cv_dictionary (item_Link object)) ruleLists
              ["Object '" +:+ item_name object +:+ "' (Type: '" +:+
               item_type object +:+ "')"] errors) as (new & Hdict & Hlen & Hnil).
  exists ruleLists, new. split; [exact Hrules |]. split; [| auto].
  rewrite Hrun. unfold bind, ValidateDictionary. now rewrite Hdict.
Qed.

End ConfigTypeProperties.

(** ** The further properties at sample inputs *)

Lemma Start_succeeds_witness :
  m_Acceptor (this (initial_world stale_files)) = acceptor_closed /\
  joinable (m_Thread (this (initial_world stale_files))) = false /\
  open_error bind_succeeds = None /\
  bind_error bind_succeeds = None /\
  exists w',
    @Start sample_collaborators bind_succeeds (initial_world stale_files) =
      Returned tt w' /\
    files w' = <[@socket_path sample_collaborators := mode_0700]> stale_files.
Proof.
  do 4 (split; [reflexivity |]).
  destruct (@Start_succeeds sample_collaborators (initial_world stale_files)
              bind_succeeds eq_refl eq_refl eq_refl eq_refl)
    as (w' & Hrun & _ & _ & _ & _ & Hfiles & _).
  exists w'. split; [exact Hrun | exact Hfiles].
Defined.

Lemma Start_bind_refused_witness :
  m_Acceptor (this (initial_world stale_files)) = acceptor_closed /\
  open_error path_in_use = None /\
  bind_error path_in_use = Some (mk_error_code 98 system_category) /\
  exists msg w',
    @Start sample_collaborators path_in_use (initial_world stale_files) =
      Thrown (system_error (mk_error_code 98 system_category) msg) w' /\
    m_Acceptor (this w') = acceptor_opened /\
    files w' = stale_files /\
    files w' !! @socket_path sample_collaborators = Some 420%Z /\
    exists msg',
      @Start sample_collaborators bind_succeeds w' =
        Thrown (system_error asio_already_open msg') w'.
Proof.
  do 3 (split; [reflexivity |]).
  destruct (@Start_bind_refused sample_collaborators (initial_world stale_files)
              path_in_use _ eq_refl eq_refl eq_refl)
    as (msg & w' & Hrun & Hacc & _ & _ & _ & Hfiles & _ & Hlater).
  exists msg, w'. split; [exact Hrun |]. split; [exact Hacc |].
  split; [exact Hfiles |]. split; [rewrite Hfiles; reflexivity |].
  exact (Hlater bind_succeeds).
Defined.

Lemma Start_on_running_service_refused_witness :
  @run sample_collaborators [call_Start bind_succeeds; call_BeforeFork] (initial_world ∅) =
    Some parked_world /\
  m_WasRunningBeforeFork (this parked_world) = true /\
  exists msg,
    @Start sample_collaborators bind_succeeds parked_world =
      Thrown (system_error asio_already_open msg) parked_world.
Proof.
  assert (@run sample_collaborators [call_Start bind_succeeds; call_BeforeFork]
            (initial_world ∅) = Some parked_world) as Hrun by (vm_compute; reflexivity).
  split; [exact Hrun |]. split; [reflexivity |].
  exact (@Start_on_running_service_refused sample_collaborators ∅ _ _ bind_succeeds
           Hrun eq_refl).
Defined.

Lemma Stop_undoes_Start_witness :
  m_Acceptor (this (initial_world stale_files)) = acceptor_closed /\
  joinable (m_Thread (this (initial_world stale_files))) = false /\
  open_error bind_succeeds = None /\
  bind_error bind_succeeds = None /\
  exists w1 w2 w3,
    @Start sample_collaborators bind_succeeds (initial_world stale_files) =
      Returned tt w1 /\
    Stop w1 = Returned tt w2 /\
    @Start sample_collaborators bind_succeeds w2 = Returned tt w3 /\
    files w2 = delete (@socket_path sample_collaborators) stale_files /\
    files w3 = <[@socket_path sample_collaborators := mode_0700]> stale_files.
Proof.
  do 4 (split; [reflexivity |]).
  destruct (@Stop_undoes_Start sample_collaborators (initial_world stale_files)
              bind_succeeds bind_succeeds eq_refl eq_refl eq_refl eq_refl eq_refl eq_refl)
    as (w1 & w2 & w3 & H1 & H2 & H3 & _ & Hf2 & _ & _ & _ & Hf3).
  exists w1, w2, w3. auto.
Defined.

Lemma Stop_when_not_joinable_witness :
  joinable (m_Thread (this (initial_world stale_files))) = false /\
  exists msg w',
    Stop (initial_world stale_files) = Thrown (std_exception msg) w' /\
    files w' = stale_files /\
    effects w' = [eff_post_TerminateDaemonControl].
Proof.
  split; [reflexivity |].
  destruct (Stop_when_not_joinable (initial_world stale_files) eq_refl)
    as (msg & w' & Hrun & _ & _ & _ & _ & Hfiles & Heff).
  exists msg, w'. auto.
Defined.

Lemma only_unprepared_parent_fork_terminates_witness :
  @run sample_collaborators [call_Start bind_succeeds] (initial_world ∅) =
    Some started_world /\
  joinable (m_Thread (this started_world)) = true /\
  @exec sample_collaborators (call_AfterFork true) started_world = Terminated.
Proof.
  assert (@run sample_collaborators [call_Start bind_succeeds] (initial_world ∅) =
            Some started_world) as Hrun by (vm_compute; reflexivity).
  split; [exact Hrun |]. split; [reflexivity |].
  apply (proj2 (@only_unprepared_parent_fork_terminates sample_collaborators ∅ _ _
                  (call_AfterFork true) Hrun)).
  split; reflexivity.
Defined.

Lemma only_socket_path_touched_witness :
  @run sample_collaborators [call_Start bind_succeeds; call_Stop]
    (initial_world stale_files) = Some cycled_world /\
  "/etc/icinga2/icinga2.conf" <> @socket_path sample_collaborators /\
  files cycled_world !! "/etc/icinga2/icinga2.conf" = Some 416%Z.
Proof.
  assert (@run sample_collaborators [call_Start bind_succeeds; call_Stop]
            (initial_world stale_files) = Some cycled_world) as Hrun
    by (vm_compute; reflexivity).
  assert ("/etc/icinga2/icinga2.conf" <> @socket_path sample_collaborators) as Hp
    by discriminate.
  split; [exact Hrun |]. split; [exact Hp |].
  rewrite (@only_socket_path_touched sample_collaborators stale_files _ _ _ Hrun Hp).
  reflexivity.
Defined.

Lemma one_answer_per_turn_witness :
  @ProcessMessages_iteration sample_collaborators sample_exchange [] =
    Returned true
      (accepted_reads sample_request ++
       [ev_write (@not_found_response sample_collaborators sample_request); ev_flush]) /\
  exists reads r,
    accepted_reads sample_request ++
      [ev_write (@not_found_response sample_collaborators sample_request); ev_flush] =
    [] ++ reads ++ [ev_write r; ev_flush] /\
    @well_formed_answer sample_collaborators r.
Proof.
  assert (@ProcessMessages_iteration sample_collaborators sample_exchange [] =
            Returned true
              (accepted_reads sample_request ++
               [ev_write (@not_found_response sample_collaborators sample_request);
                ev_flush])) as Hrun by (vm_compute; reflexivity).
  split; [exact Hrun |].
  destruct (@one_answer_per_turn sample_collaborators _ _ _ _ Hrun)
    as (reads & r & Heq & _ & Hok & _).
  exists reads, r. auto.
Defined.

Lemma rule_lists_after_first_OK_ignored_witness :
  fst (@TypeRuleList_Validate sample_type_rules object_rules "alias" (cv_scalar "web")) =
    ValidationOK /\
  @ValidateDictionary_rules sample_type_rules ([] ++ object_rules :: [host_rules])
    "alias" (cv_scalar "web") ValidationUnknownField [] =
  @ValidateDictionary_rules sample_type_rules ([] ++ [object_rules])
    "alias" (cv_scalar "web") ValidationUnknownField [].
Proof.
  split; [reflexivity |].
  exact (@rule_lists_after_first_OK_ignored sample_type_rules [] [host_rules]
           object_rules "alias" (cv_scalar "web") ValidationUnknownField [] eq_refl).
Defined.

Lemma destructor_of_reachable_service_witness :
  @run sample_collaborators [call_Start bind_succeeds; call_BeforeFork] (initial_world ∅) =
    Some parked_world /\
  exists w',
    DaemonControl_dtor parked_world = Returned tt w' /\
    m_Acceptor (this w') = acceptor_closed.
Proof.
  assert (@run sample_collaborators [call_Start bind_succeeds; call_BeforeFork]
            (initial_world ∅) = Some parked_world) as Hrun by (vm_compute; reflexivity).
  split; [exact Hrun |].
  destruct (@destructor_of_reachable_service sample_collaborators ∅ _ _ Hrun)
    as (w' & Hd & Hacc & _).
  exists w'. auto.
Defined.
